(** * The analytical core of [streamlit_app.py]

    The dashboard script loads one table of yearly indicators, restricts it
    to a year range chosen on a slider, and derives a handful of statistics
    from the restricted frame.  This development embeds that pipeline and
    proves the properties its specification states.

    Conventions of the embedding.
    - A pandas [DataFrame] with the three columns of the table is a list of
      rows, in frame order.  The [year] column holds integers ([Z]).
    - A floating-point cell is a real number; a float that may be NaN is a
      [float := option R] with [None] for NaN.  Rounding is outside the
      model.  Statements that divide assume the divisor is not zero; what a
      division by zero gives in doubles (an infinity or NaN) is in the
      module [Ieee].  Statements about the correlation and the fitted line
      that depend on how the doubles of numpy decide a rank or a zero
      variance are stated for [well_conditioned] columns.
    - A Python exception is a value of [exn]; code that may raise returns a
      [result]. *)

From Stdlib Require Import String.
From Stdlib Require Import ZArith List Bool Reals Lra Lia.
From Stdlib Require Import Sorting.Sorted Sorting.Permutation.
Import ListNotations.

(** ** Exceptions and results *)

Module Py.

Inductive exn : Set :=
| ValueError        (* int(nan) *)
| TypeError         (* np.polyfit on an empty vector *)
| LinAlgError       (* np.linalg.lstsq on a matrix holding NaN *)
| OperationalError  (* sqlite3.connect cannot open the file *)
| DatabaseError     (* pandas.read_sql_query: the statement fails *)
| StreamlitAPIException. (* st.slider: min_value is not below max_value *)

Inductive result (A : Type) : Type :=
| Ok (a : A)
| Raise (e : exn).

Arguments Ok {A} a.
Arguments Raise {A} e.

Definition bind {A B : Type} (m : result A) (k : A -> result B) : result B :=
  match m with
  | Ok a => k a
  | Raise e => Raise e
  end.

Definition raises {A : Type} (m : result A) : bool :=
  match m with
  | Ok _ => false
  | Raise _ => true
  end.

End Py.

Import Py.

Notation "x <- m ;; k" := (bind m (fun x => k))
  (at level 61, m at next level, right associativity).

(** ** The frame and the year filter *)

Record row : Type := mkRow {
  year : Z;
  total_co2_emissions : R;
  pct_unable_to_afford_diet : R
}.

Definition DataFrame : Type := list row.

(** [df['year'].min()] and [df['year'].max()]: NaN on the empty column. *)
Definition year_min (df : DataFrame) : option Z :=
  match map year df with
  | [] => None
  | y :: ys => Some (fold_left Z.min ys y)
  end.

Definition year_max (df : DataFrame) : option Z :=
  match map year df with
  | [] => None
  | y :: ys => Some (fold_left Z.max ys y)
  end.

(** [int(v)] on the result of a reduction: NaN cannot be converted. *)
Definition py_int (v : option Z) : result Z :=
  match v with
  | Some z => Ok z
  | None => Raise ValueError
  end.

(** The slider's [min_value], [max_value]; its initial [value] is the same
    pair (lines 43-48). *)
Definition slider_bounds (df : DataFrame) : result (Z * Z) :=
  lo <- py_int (year_min df) ;;
  hi <- py_int (year_max df) ;;
  Ok (lo, hi).

(** The boolean mask of line 51, one row at a time. *)
Definition year_mask (year_range : Z * Z) (r : row) : bool :=
  (year r >=? fst year_range)%Z && (year r <=? snd year_range)%Z.

(** [filtered_df = df[(df['year'] >= year_range[0]) & (df['year'] <= year_range[1])]] *)
Definition filtered_df (df : DataFrame) (year_range : Z * Z) : DataFrame :=
  filter (year_mask year_range) df.

(** Frame order is ascending in [year] (what [ORDER BY year] delivers). *)
Definition year_le (a b : row) : Prop := (year a <= year b)%Z.

Definition ascending (df : DataFrame) : Prop := StronglySorted year_le df.

(** Order-preserving subsequence: rows are dropped, never added or moved. *)
Inductive subseq {A : Type} : list A -> list A -> Prop :=
| subseq_nil : subseq [] []
| subseq_drop (x : A) (s l : list A) : subseq s l -> subseq s (x :: l)
| subseq_keep (x : A) (s l : list A) : subseq s l -> subseq (x :: s) (x :: l).

(** ** Series and their reductions *)

Definition float : Type := option R.

Definition Series : Type := list float.

(** [df[name]]: a column of the frame as a Series (no NaN in it). *)
Definition column (f : row -> R) (df : DataFrame) : Series :=
  map (fun r => Some (f r)) df.

Definition Rsum (xs : list R) : R := fold_right Rplus 0%R xs.

Definition Rmean (xs : list R) : R := (Rsum xs / INR (length xs))%R.

Definition dropna (s : Series) : list R :=
  flat_map (fun v => match v with Some x => [x] | None => [] end) s.

(** [Series.mean()]: NaN entries are skipped; NaN when nothing is left. *)
Definition Series_mean (s : Series) : float :=
  match dropna s with
  | [] => None
  | xs => Some (Rmean xs)
  end.

(** Arithmetic on floats: NaN is absorbing.  The quotient is the real one,
    which stands for the double only when the divisor is not zero: the
    infinities and [0 / 0] of the doubles are in [Ieee.div] below, and the
    statements that use [fdiv] divide by no zero. *)
Definition fdiv (a b : float) : float :=
  match a, b with
  | Some x, Some y => Some (x / y)%R
  | _, _ => None
  end.

Definition fsub (a : float) (c : R) : float := option_map (fun x => (x - c)%R) a.

Definition fmul (a : float) (c : R) : float := option_map (fun x => (x * c)%R) a.

(** [Series.shift(1)]: every value moves one place down, NaN enters on top. *)
Definition shift (s : Series) : Series :=
  match s with
  | [] => []
  | _ :: _ => None :: removelast s
  end.

Fixpoint zip_with {A B C : Type} (f : A -> B -> C) (l : list A) (m : list B) : list C :=
  match l, m with
  | a :: l', b :: m' => f a b :: zip_with f l' m'
  | _, _ => []
  end.

(** [Series.pct_change()] computes [data / data.shift(1) - 1]. *)
Definition pct_change (s : Series) : Series :=
  map (fun v => fsub v 1) (zip_with fdiv s (shift s)).

(** The percentage-change mean as the specification words it: the
    arithmetic mean of [(x[i] - x[i-1]) / x[i-1]] for [i = 1..n-1], and
    undefined when [n < 2]. *)
Definition spec_pct_change_mean (x : list R) : float :=
  let n := length x in
  if (n <? 2)%nat then None
  else
    Some (Rsum (map (fun i => (nth i x 0 - nth (i - 1) x 0) / nth (i - 1) x 0)
                    (seq 1 (n - 1)))
          / INR (n - 1))%R.

(** The quotients [x[i] / x[i-1]], given the value before the first. *)
Fixpoint quotients (prev : R) (xs : list R) : list R :=
  match xs with
  | [] => []
  | x :: xs' => (x / prev)%R :: quotients x xs'
  end.

(** *** Pearson correlation: [Series.corr] through [np.corrcoef] *)

(** A series is constant when any two of its values are equal. *)
Definition constant (xs : list R) : Prop :=
  forall a b, In a xs -> In b xs -> a = b.

(** [valid = notna(a) & notna(b)]: the pairs both series have a value for. *)
Fixpoint valid_pairs (a b : Series) : list (R * R) :=
  match a, b with
  | Some x :: a', Some y :: b' => (x, y) :: valid_pairs a' b'
  | _ :: a', _ :: b' => valid_pairs a' b'
  | _, _ => []
  end.

Definition dot (u v : list R) : R :=
  Rsum (map (fun p => (fst p * snd p)%R) (combine u v)).

(** [X -= X.mean()] *)
Definition dev (xs : list R) : list R := map (fun x => (x - Rmean xs)%R) xs.

(** One entry of [np.cov] ([ddof = 1]). *)
Definition np_cov (u v : list R) : R :=
  (dot (dev u) (dev v) / (INR (length u) - 1))%R.

(** [np.clip(x, lo, hi)] *)
Definition clip (lo hi x : R) : R := Rmin hi (Rmax lo x).

(** The correlation before [np.corrcoef] clips it. *)
Definition pearson (x y : list R) : R :=
  (np_cov x y / sqrt (np_cov x x) / sqrt (np_cov y y))%R.

(** [np.corrcoef(x, y)[0, 1]].  With fewer than two points the covariance
    is NaN (no degrees of freedom); with a constant series it is [0 / 0]
    in exact arithmetic (in doubles the mean of equal values can be off by
    one unit in the last place, and the result is then a number of no
    meaning rather than NaN). *)
Definition corrcoef (x y : list R) : float :=
  if (length x <=? 1)%nat then None
  else if Req_dec_T (np_cov x x) 0 then None
  else if Req_dec_T (np_cov y y) 0 then None
  else Some (clip (-1) 1 (pearson x y)).

Definition corr (a b : Series) : float :=
  let ps := valid_pairs a b in
  corrcoef (map fst ps) (map snd ps).

(** The label of the correlation metric (line 82): [correlation < 0] is
    false on NaN. *)
Definition corr_label (c : float) : string :=
  match c with
  | Some r => if Rlt_dec r 0 then "Negative"%string else "Positive"%string
  | None => "Positive"%string
  end.

(** *** The trend line: [np.polyfit(x, y, 1)] *)

(** [np.asarray(series)]: the values, when none is NaN. *)
Fixpoint asarray (s : Series) : option (list R) :=
  match s with
  | [] => Some []
  | Some x :: s' => option_map (cons x) (asarray s')
  | None :: _ => None
  end.

(** The degree-1 least-squares fit, highest power first.  numpy rejects an
    empty [x]; on a full-rank system the normal equations give the unique
    minimiser; when every [x] is the same value [c] the system has rank 1,
    numpy warns ([RankWarning]) and returns the minimum-norm solution of the
    column-scaled system, which is [(mean y / (2 c), mean y / 2)]; when that
    [c] is 0 the column scaling divides by zero and [lstsq] fails.  The
    rank is the exact one: numpy decides it in doubles with the threshold
    [rcond = n * 2^-52], so it also takes the minimum-norm branch on an [x]
    whose spread is of the order of the rounding, and fails when the
    squares of [x] underflow; [well_conditioned] below excludes both. *)
Definition polyfit_arrays (x y : list R) : result (R * R) :=
  if (length x =? 0)%nat then Raise TypeError
  else if negb (length x =? length y)%nat then Raise TypeError
  else
    let n := INR (length x) in
    let sx := Rsum x in
    let sy := Rsum y in
    let sxx := dot x x in
    let sxy := dot x y in
    let det := (n * sxx - sx * sx)%R in
    if Req_dec_T det 0 then
      if Req_dec_T sx 0 then Raise LinAlgError
      else Ok (sy / n / (2 * (sx / n)), sy / n / 2)%R
    else Ok ((n * sxy - sx * sy) / det, (sy * sxx - sx * sxy) / det)%R.

Definition polyfit (x y : Series) : result (R * R) :=
  match asarray x, asarray y with
  | Some xs, Some ys => polyfit_arrays xs ys
  | _, _ => Raise LinAlgError
  end.

(** The trend line as the specification words it: slope = covariance(x, y)
    / variance(x), intercept = mean(y) - slope * mean(x). *)
Definition spec_trend_line (x y : list R) : R * R :=
  let slope := (np_cov x y / np_cov x x)%R in
  (slope, (Rmean y - slope * Rmean x)%R).

(** [p = np.poly1d(z)]; [p(x)] evaluates the fitted line (lines 133-134). *)
Definition poly1d (z : R * R) (x : R) : R := (fst z * x + snd z)%R.

(** Sum of squared residuals of the line [a * x + b]. *)
Definition sse (x y : list R) (a b : R) : R :=
  Rsum (map (fun p => ((snd p - (a * fst p + b)) * (snd p - (a * fst p + b)))%R)
            (combine x y)).

(** ** The metrics and the trend line of one run (lines 61-136) *)

Record Metrics : Type := mkMetrics {
  avg_co2 : float;            (* line 66 *)
  delta_co2 : float;          (* line 67 *)
  avg_diet : float;           (* line 73 *)
  delta_diet : float;         (* line 74 *)
  correlation : float;        (* line 78 *)
  correlation_delta : string; (* line 82 *)
  data_points : nat;          (* line 88 *)
  z : R * R                   (* line 132: slope, intercept *)
}.

Definition analyze (filtered_df : DataFrame) : result Metrics :=
  let co2 := column total_co2_emissions filtered_df in
  let diet := column pct_unable_to_afford_diet filtered_df in
  let correlation := corr co2 diet in
  z <- polyfit co2 diet ;;
  Ok {| avg_co2 := Series_mean co2;
        delta_co2 := fmul (Series_mean (pct_change co2)) 100;
        avg_diet := Series_mean diet;
        delta_diet := fmul (Series_mean (pct_change diet)) 100;
        correlation := correlation;
        correlation_delta := corr_label correlation;
        data_points := length filtered_df;
        z := z |}.

(** [st.sidebar.slider(..., min_value, max_value, value)]: the widget
    refuses bounds unless [min_value < max_value]; otherwise it returns the
    range the user picks ([pick]; the widget only lets the user pick
    [a <= b] between the bounds). *)
Definition slider (bounds : Z * Z) (pick : Z * Z -> Z * Z) : result (Z * Z) :=
  if (fst bounds <? snd bounds)%Z then Ok (pick bounds)
  else Raise StreamlitAPIException.

(** The script from the slider on.  The value is what a complete run
    computes: when a step raises, the run stops there. *)
Definition dashboard (df : DataFrame) (pick : Z * Z -> Z * Z) : result Metrics :=
  bounds <- slider_bounds df ;;
  year_range <- slider bounds pick ;;
  analyze (filtered_df df year_range).

(** ** Example data *)

(** The example table of the specification's end-to-end scenario. *)
Definition example_df : DataFrame :=
  [ mkRow 2017 440.0 60.8; mkRow 2018 434.6 60.2; mkRow 2019 464.1 60.2;
    mkRow 2020 434.1 61.8; mkRow 2021 425.9 61.1; mkRow 2022 405.3 61.0;
    mkRow 2023 401.9 61.7 ]%R.

(** The inline sample of [test_streamlit.py] (lines 12-16), read with the
    column names of the table; the example table above is this sample with
    the CO2 values rounded to one decimal. *)
Definition data : DataFrame :=
  [ mkRow 2017 439.996 60.8; mkRow 2018 434.581 60.2; mkRow 2019 464.114 60.2;
    mkRow 2020 434.067 61.8; mkRow 2021 425.918 61.1; mkRow 2022 405.312 61.0;
    mkRow 2023 401.893 61.7 ]%R.


(** The synthetic linear input of the specification: x = 1..5 in the CO2
    column and y = 2x + 3 in the diet column. *)
Definition synthetic_df : DataFrame :=
  [ mkRow 1 1 (2 * 1 + 3); mkRow 2 2 (2 * 2 + 3); mkRow 3 3 (2 * 3 + 3);
    mkRow 4 4 (2 * 4 + 3); mkRow 5 5 (2 * 5 + 3) ]%R.

(** ** Loading the table (lines 28-33) *)

Module Sqlite.

(** A cell of a table: SQLite's INTEGER and REAL storage classes (NULL,
    TEXT and BLOB cells are not modelled). *)
Inductive cell : Type :=
| CInt (n : Z)
| CReal (x : R).

Definition cell_value (c : cell) : R :=
  match c with
  | CInt n => IZR n
  | CReal x => x
  end.

Record table : Type := mkTable {
  columns : list string;
  rows : list (list cell)
}.

(** What [sqlite3.connect] finds at the path of the database file: a path
    that cannot be opened; a file that is not an SQLite database; or a
    database in which the table [environmental_social_data] exists or not
    (a missing file in an existing directory is created as an empty
    database, without the table). *)
Inductive source : Type :=
| Unopenable
| NotADatabase
| Database (environmental_social_data : option table).

(** The connection: [sqlite3.connect] does not read the file, so a file
    that is not a database still gives a connection, on which every
    statement fails. *)
Inductive connection : Type :=
| Garbage
| Tables (environmental_social_data : option table).

(** The frame [pd.read_sql_query] builds: the columns of the result set and
    its rows, in result order. *)
Record Frame : Type := mkFrame {
  frame_columns : list string;
  frame_rows : list (list cell)
}.

(** The position of a column label in a frame, as pandas looks it up
    ([df['year']]): the label has to match exactly. *)
Fixpoint column_index (name : string) (cols : list string) : option nat :=
  match cols with
  | [] => None
  | c :: cols' =>
      if String.eqb c name then Some 0%nat
      else option_map S (column_index name cols')
  end.

(** SQL identifiers: SQLite compares them without regard to the case of
    the ASCII letters. *)
Definition ascii_lower (c : Ascii.ascii) : Ascii.ascii :=
  let n := Ascii.nat_of_ascii c in
  if ((65 <=? n) && (n <=? 90))%nat then Ascii.ascii_of_nat (n + 32) else c.

Fixpoint lower (s : string) : string :=
  match s with
  | EmptyString => EmptyString
  | String c s' => String (ascii_lower c) (lower s')
  end.

Definition sql_name_eqb (a b : string) : bool := String.eqb (lower a) (lower b).

Fixpoint column_index_nocase (name : string) (cols : list string)
    : option nat :=
  match cols with
  | [] => None
  | c :: cols' =>
      if sql_name_eqb c name then Some 0%nat
      else option_map S (column_index_nocase name cols')
  end.

(** The column a name in a statement refers to.  SQLite refuses a table
    with two columns that are equal up to case, so at most one column
    matches; the exact spelling is tried first only to make the choice
    definite on lists of columns that no table can have
    ([sql_column_index_distinct]). *)
Definition sql_column_index (name : string) (cols : list string) : option nat :=
  match column_index name cols with
  | Some i => Some i
  | None => column_index_nocase name cols
  end.

(** The sort key of [ORDER BY year] for a row whose [year] is column [i]. *)
Definition year_key (i : nat) (r : list cell) : R :=
  match nth_error r i with
  | Some c => cell_value c
  | None => 0%R
  end.

Fixpoint insert_by (key : list cell -> R) (r : list cell)
    (l : list (list cell)) : list (list cell) :=
  match l with
  | [] => [r]
  | r' :: l' =>
      if Rle_dec (key r) (key r') then r :: l else r' :: insert_by key r l'
  end.

(** [ORDER BY]: ascending in the key, rows with equal keys in table order. *)
Definition order_by (key : list cell -> R) (l : list (list cell))
    : list (list cell) :=
  fold_right (insert_by key) [] l.

Definition connect (src : source) : result connection :=
  match src with
  | Unopenable => Raise OperationalError
  | NotADatabase => Ok Garbage
  | Database t => Ok (Tables t)
  end.

(** [pd.read_sql_query("SELECT * FROM environmental_social_data ORDER BY
    year", conn)]: the statement fails when the file is not a database, or
    the table does not exist, or no column of it is named [year] (in any
    case of the letters); otherwise every column and every row comes
    back. *)
Definition read_sql_query (conn : connection) : result Frame :=
  match conn with
  | Garbage => Raise DatabaseError
  | Tables None => Raise DatabaseError
  | Tables (Some t) =>
      match sql_column_index "year" (columns t) with
      | None => Raise DatabaseError
      | Some i => Ok (mkFrame (columns t) (order_by (year_key i) (rows t)))
      end
  end.

Definition load_data (src : source) : result Frame :=
  conn <- connect src ;;
  df <- read_sql_query conn ;;
  Ok df.

Definition sorted_by_year (F : Frame) : Prop :=
  exists i, sql_column_index "year" (frame_columns F) = Some i /\
            StronglySorted (fun a b => (year_key i a <= year_key i b)%R)
                           (frame_rows F).

(** The typed reading of a frame, as the rest of the script uses it: the
    three named columns, with integers in [year]. *)
Definition to_row (i j k : nat) (r : list cell) : option row :=
  match nth_error r i, nth_error r j, nth_error r k with
  | Some (CInt y), Some c, Some d => Some (mkRow y (cell_value c) (cell_value d))
  | _, _, _ => None
  end.

Fixpoint all_some {A : Type} (l : list (option A)) : option (list A) :=
  match l with
  | [] => Some []
  | Some a :: l' => option_map (cons a) (all_some l')
  | None :: _ => None
  end.

Definition to_rows (F : Frame) : option DataFrame :=
  match column_index "year" (frame_columns F),
        column_index "total_co2_emissions" (frame_columns F),
        column_index "pct_unable_to_afford_diet" (frame_columns F) with
  | Some i, Some j, Some k => all_some (map (to_row i j k) (frame_rows F))
  | _, _, _ => None
  end.

(** Two sources on which loading is claimed to fail: the table with its
    three columns and no row, and a table without the CO2 column. *)
Definition three_columns : list string :=
  ["year"; "total_co2_emissions"; "pct_unable_to_afford_diet"]%string.

Definition empty_source : source := Database (Some (mkTable three_columns [])).

Definition no_co2_source : source :=
  Database (Some (mkTable ["year"; "pct_unable_to_afford_diet"]%string
                          [[CInt 2017; CReal 60.8]])).

(** A table whose year column is spelled [Year]. *)
Definition capital_year_source : source :=
  Database (Some (mkTable
    ["Year"; "total_co2_emissions"; "pct_unable_to_afford_diet"]%string
    [ [CInt 2018; CReal 434.6; CReal 60.2];
      [CInt 2017; CReal 440.0; CReal 60.8] ]%R)).

End Sqlite.

(** ** Frames without a gap *)

(** The years [ys] are [y, y + 1, y + 2, ...]: one row per year, none
    missing (the table of the dashboard runs from 2017 to 2023). *)
Fixpoint consecutive_from (y : Z) (ys : list Z) : Prop :=
  match ys with
  | [] => True
  | y' :: ys' => y' = y /\ consecutive_from (y + 1) ys'
  end.

Definition gap_free (df : DataFrame) : Prop :=
  match map year df with
  | [] => True
  | y :: ys => consecutive_from (y + 1) ys
  end.

(** What a complete run on the synthetic input computes. *)
Definition synthetic_metrics : Metrics :=
  {| avg_co2 := Series_mean (column total_co2_emissions synthetic_df);
     delta_co2 :=
       fmul (Series_mean (pct_change (column total_co2_emissions
                                             synthetic_df))) 100;
     avg_diet := Series_mean (column pct_unable_to_afford_diet synthetic_df);
     delta_diet :=
       fmul (Series_mean (pct_change (column pct_unable_to_afford_diet
                                             synthetic_df))) 100;
     correlation := corr (column total_co2_emissions synthetic_df)
                         (column pct_unable_to_afford_diet synthetic_df);
     correlation_delta :=
       corr_label (corr (column total_co2_emissions synthetic_df)
                        (column pct_unable_to_afford_diet synthetic_df));
     data_points := length synthetic_df;
     z := (2, 3)%R |}.

(** A table whose two rows are stored out of year order. *)
Definition unsorted_source : Sqlite.source :=
  Sqlite.Database (Some (Sqlite.mkTable Sqlite.three_columns
    [ [Sqlite.CInt 2018; Sqlite.CReal 434.6; Sqlite.CReal 60.2];
      [Sqlite.CInt 2017; Sqlite.CReal 440.0; Sqlite.CReal 60.8] ]%R)).

(** ** Division by zero in the percentage change *)

Module Ieee.

(** A double, as far as a division by zero can tell: a number, an infinity
    or NaN.  Rounding is not modelled, and the real number 0 stands for
    [+0.0] (a stored [-0.0] as divisor would flip the sign of the
    infinity). *)
Inductive value : Type :=
| Num (r : R)
| Inf (negative : bool)
| NaN.

Definition of_float (v : float) : value :=
  match v with
  | Some r => Num r
  | None => NaN
  end.

(** [a / b] on two cells of a Series. *)
Definition div (a b : float) : value :=
  match a, b with
  | Some x, Some y =>
      if Req_dec_T y 0 then
        if Req_dec_T x 0 then NaN
        else Inf (if Rlt_dec x 0 then true else false)
      else Num (x / y)
  | _, _ => NaN
  end.

Definition sub (a : value) (c : R) : value :=
  match a with
  | Num r => Num (r - c)
  | Inf s => Inf s
  | NaN => NaN
  end.

Definition add (a b : value) : value :=
  match a, b with
  | NaN, _ => NaN
  | _, NaN => NaN
  | Num x, Num y => Num (x + y)
  | Inf s, Num _ => Inf s
  | Num _, Inf s => Inf s
  | Inf s, Inf t => if Bool.eqb s t then Inf s else NaN
  end.

(** Division by a count. *)
Definition divn (a : value) (n : nat) : value :=
  match a with
  | Num r => Num (r / INR n)
  | Inf s => Inf s
  | NaN => NaN
  end.

Definition sum (vs : list value) : value := fold_right add (Num 0) vs.

Definition notna (v : value) : bool :=
  match v with
  | NaN => false
  | _ => true
  end.

(** [Series.mean()]: the NaN entries are skipped, the infinities are not. *)
Definition mean (s : list value) : value :=
  match filter notna s with
  | [] => NaN
  | vs => divn (sum vs) (length vs)
  end.

(** [Series.pct_change()], [data / data.shift(1) - 1], with the division
    of the doubles. *)
Definition pct_change (s : Series) : list value :=
  map (fun v => sub v 1) (zip_with div s (shift s)).

(** The arithmetic mean of [(x[i] - x[i-1]) / x[i-1]] over [i = 1..n-1],
    every term counted, in the same arithmetic. *)
Definition spec_pct_change_mean (x : list R) : value :=
  let n := length x in
  if (n <? 2)%nat then NaN
  else
    divn (sum (map (fun i => div (Some (nth i x 0 - nth (i - 1) x 0)%R)
                                 (Some (nth (i - 1) x 0%R)))
                   (seq 1 (n - 1))))
         (n - 1).

End Ieee.

(** ** Where the real numbers stand for the doubles *)

(** The statements about the correlation and the fitted line compare
    exact real numbers.  They are stated for columns on which the doubles
    of numpy behave like the reals up to rounding: values whose squares
    and products neither overflow nor underflow, and a spread that is not
    lost in the rounding of the mean nor cut off by the rank test of
    [np.polyfit] ([rcond = n * 2^-52]). *)
Definition double_range (v : R) : Prop := (Rabs v <= 1e100)%R.

(** A column of at most a million values in that range, not all tiny, and
    whose variance is at least [1e-12] times its mean square: the
    spread is then a million times the rounding of a double, and the
    smaller singular value of the scaled matrix of [np.polyfit] is above
    [rcond] times the larger one. *)
Definition well_conditioned (x : list R) : Prop :=
  Forall double_range x /\
  (INR (length x) <= 1e6)%R /\
  (1e-200 <= dot x x)%R /\
  (1e-12 * (INR (length x) * dot x x)
   <= INR (length x) * dot x x - Rsum x * Rsum x)%R.

(** A row whose CO2 value is positive with a square in the range of the
    doubles, and whose diet value is in range. *)
Definition moderate_row (r : row) : Prop :=
  (1e-100 <= total_co2_emissions r <= 1e100)%R /\
  double_range (pct_unable_to_afford_diet r).

(** * Proofs *)

Import Sqlite.

Open Scope R_scope.

(** ** Properties of the filter *)

Lemma year_mask_spec (lo hi : Z) (r : row) :
  year_mask (lo, hi) r = true <-> (lo <= year r <= hi)%Z.
Proof.
  unfold year_mask; simpl.
  rewrite andb_true_iff, Z.geb_le, Z.leb_le. tauto.
Qed.

Lemma subseq_refl {A : Type} (l : list A) : subseq l l.
Proof. induction l; constructor; assumption. Qed.

Lemma subseq_filter {A : Type} (p : A -> bool) (l : list A) :
  subseq (filter p l) l.
Proof.
  induction l as [|x l IH]; simpl.
  - constructor.
  - destruct (p x); constructor; exact IH.
Qed.

Lemma subseq_filter_greatest {A : Type} (p : A -> bool) (s l : list A) :
  subseq s l -> Forall (fun x => p x = true) s -> subseq s (filter p l).
Proof.
  induction 1 as [|x s l _ IH|x s l _ IH]; intros Hall; simpl.
  - constructor.
  - destruct (p x); [apply subseq_drop|]; auto.
  - inversion Hall as [|? ? Hx Hs]; subst. rewrite Hx.
    apply subseq_keep; auto.
Qed.

Lemma ascending_filter (p : row -> bool) (df : DataFrame) :
  ascending df -> ascending (filter p df).
Proof.
  unfold ascending.
  induction 1 as [|r df _ IH Hr]; simpl.
  - constructor.
  - destruct (p r); [|exact IH].
    constructor; [exact IH|].
    rewrite Forall_forall in *. intros x Hx.
    apply filter_In in Hx. apply Hr, Hx.
Qed.

Lemma filter_all {A : Type} (p : A -> bool) (l : list A) :
  (forall x, In x l -> p x = true) -> filter p l = l.
Proof.
  induction l as [|x l IH]; simpl; intros H.
  - reflexivity.
  - rewrite (H x (or_introl eq_refl)). f_equal. apply IH. auto.
Qed.

Lemma filter_none {A : Type} (p : A -> bool) (l : list A) :
  (forall x, In x l -> p x = false) -> filter p l = [].
Proof.
  induction l as [|x l IH]; simpl; intros H.
  - reflexivity.
  - rewrite (H x (or_introl eq_refl)). apply IH. auto.
Qed.

Lemma fold_min_lower (ys : list Z) (y : Z) :
  (fold_left Z.min ys y <= y)%Z /\
  (forall v, In v ys -> (fold_left Z.min ys y <= v)%Z).
Proof.
  revert y. induction ys as [|a ys IH]; intros y; simpl.
  - split; [lia | tauto].
  - destruct (IH (Z.min y a)) as [H1 H2]. split.
    + lia.
    + intros v [->|Hv]; [lia | auto].
Qed.

Lemma fold_max_upper (ys : list Z) (y : Z) :
  (y <= fold_left Z.max ys y)%Z /\
  (forall v, In v ys -> (v <= fold_left Z.max ys y)%Z).
Proof.
  revert y. induction ys as [|a ys IH]; intros y; simpl.
  - split; [lia | tauto].
  - destruct (IH (Z.max y a)) as [H1 H2]. split.
    + lia.
    + intros v [->|Hv]; [lia | auto].
Qed.

Lemma year_min_lower (df : DataFrame) (lo : Z) (r : row) :
  year_min df = Some lo -> In r df -> (lo <= year r)%Z.
Proof.
  unfold year_min. intros H Hin. apply (in_map year) in Hin.
  destruct (map year df) as [|y ys]; [discriminate|].
  injection H as <-. destruct (fold_min_lower ys y) as [H1 H2].
  destruct Hin as [<-|Hin]; auto.
Qed.

Lemma year_max_upper (df : DataFrame) (hi : Z) (r : row) :
  year_max df = Some hi -> In r df -> (year r <= hi)%Z.
Proof.
  unfold year_max. intros H Hin. apply (in_map year) in Hin.
  destruct (map year df) as [|y ys]; [discriminate|].
  injection H as <-. destruct (fold_max_upper ys y) as [H1 H2].
  destruct Hin as [<-|Hin]; auto.
Qed.

Lemma slider_bounds_nonempty (df : DataFrame) :
  df <> [] -> exists lo hi, slider_bounds df = Ok (lo, hi) /\
                            year_min df = Some lo /\ year_max df = Some hi.
Proof.
  intros Hne. destruct df as [|r df]; [congruence|].
  unfold slider_bounds, year_min, year_max. simpl. eauto.
Qed.

Lemma slider_bounds_empty : slider_bounds [] = Raise ValueError.
Proof. reflexivity. Qed.

Lemma example_df_ascending : ascending example_df.
Proof.
  unfold ascending, example_df.
  repeat (constructor; [|repeat constructor; unfold year_le; simpl; lia]).
  constructor.
Qed.

(** C1. On a frame in ascending year order, the filter keeps exactly the
    rows whose year lies in [[lo, hi]]: a row is in the result iff it is in
    the frame and in range; the result is still in ascending year order;
    it is an order-preserving subsequence of the frame (nothing inserted);
    and it is the greatest one, every in-range subsequence of the frame
    being a subsequence of it. *)
Theorem filtered_df_exact (df : DataFrame) (lo hi : Z) :
  ascending df ->
  (forall r, In r (filtered_df df (lo, hi)) <->
             In r df /\ (lo <= year r <= hi)%Z) /\
  ascending (filtered_df df (lo, hi)) /\
  subseq (filtered_df df (lo, hi)) df /\
  (forall s, subseq s df ->
             Forall (fun r => (lo <= year r <= hi)%Z) s ->
             subseq s (filtered_df df (lo, hi))).
Proof.
  intros Hasc. unfold filtered_df. split; [|split; [|split]].
  - intros r. rewrite filter_In, year_mask_spec. tauto.
  - apply ascending_filter. exact Hasc.
  - apply subseq_filter.
  - intros s Hs Hall. apply subseq_filter_greatest; [exact Hs|].
    eapply Forall_impl; [|exact Hall].
    intros r Hr. apply year_mask_spec. exact Hr.
Qed.

Lemma filtered_df_exact_witness :
  ascending example_df /\
  subseq (filtered_df example_df (2019, 2021)%Z) example_df.
Proof.
  split.
  - exact example_df_ascending.
  - exact (proj1 (proj2 (proj2
      (filtered_df_exact example_df 2019 2021 example_df_ascending)))).
Defined.

Lemma year_mask_bounds (df : DataFrame) (lo hi : Z) :
  year_min df = Some lo -> year_max df = Some hi ->
  filter (year_mask (lo, hi)) df = df.
Proof.
  intros Hlo Hhi. apply filter_all.
  intros r Hr. apply year_mask_spec. split.
  - eapply year_min_lower; eauto.
  - eapply year_max_upper; eauto.
Qed.

(** C7. Filtering with the full range, the frame's least and greatest
    year (which is what the slider starts from), returns the frame
    unchanged. *)
Theorem filtered_df_full_range (df : DataFrame) (lo hi : Z) :
  year_min df = Some lo -> year_max df = Some hi ->
  slider_bounds df = Ok (lo, hi) /\ filtered_df df (lo, hi) = df.
Proof.
  intros Hlo Hhi. split.
  - unfold slider_bounds. rewrite Hlo, Hhi. reflexivity.
  - apply year_mask_bounds; assumption.
Qed.

Lemma filtered_df_full_range_witness :
  year_min example_df = Some 2017%Z /\ year_max example_df = Some 2023%Z /\
  slider_bounds example_df = Ok (2017, 2023)%Z /\
  filtered_df example_df (2017, 2023)%Z = example_df.
Proof.
  split; [reflexivity|]. split; [reflexivity|].
  apply (filtered_df_full_range example_df 2017 2023); reflexivity.
Defined.

(** The first run of the script, before the slider is touched, analyses
    the whole frame when the frame spans two years or more; a frame whose
    rows all have the same year is refused by the slider, and a frame
    without rows stops before it. *)
Lemma dashboard_initial (df : DataFrame) (lo hi : Z) :
  year_min df = Some lo -> year_max df = Some hi -> (lo < hi)%Z ->
  dashboard df (fun bounds => bounds) = analyze df.
Proof.
  intros Hlo Hhi Hlt.
  unfold dashboard, slider_bounds. rewrite Hlo, Hhi. simpl.
  unfold slider. simpl.
  destruct (lo <? hi)%Z eqn:E; [|apply Z.ltb_ge in E; lia].
  simpl. unfold filtered_df.
  rewrite (year_mask_bounds df lo hi Hlo Hhi). reflexivity.
Qed.

Lemma dashboard_one_year (df : DataFrame) (y : Z) (pick : Z * Z -> Z * Z) :
  year_min df = Some y -> year_max df = Some y ->
  dashboard df pick = Raise StreamlitAPIException.
Proof.
  intros Hlo Hhi. unfold dashboard, slider_bounds. rewrite Hlo, Hhi. simpl.
  unfold slider. simpl. rewrite Z.ltb_irrefl. reflexivity.
Qed.

Lemma dashboard_empty (pick : Z * Z -> Z * Z) :
  dashboard [] pick = Raise ValueError.
Proof. reflexivity. Qed.

(** C9. The filter is a total function of the frame and of any pair of
    integers: whatever [lo] and [hi] are, it returns the subsequence of the
    rows whose year lies in [[lo, hi]], and that subsequence is empty when
    the pair is inverted. *)
Theorem filtered_df_any_pair (df : DataFrame) (lo hi : Z) :
  exists view : DataFrame,
    filtered_df df (lo, hi) = view /\
    subseq view df /\
    (forall r, In r view <-> In r df /\ (lo <= year r <= hi)%Z) /\
    ((hi < lo)%Z -> view = []).
Proof.
  exists (filtered_df df (lo, hi)). split; [reflexivity|].
  unfold filtered_df. split; [apply subseq_filter|]. split.
  - intros r. rewrite filter_In, year_mask_spec. tauto.
  - intros Hinv. apply filter_none. intros r _.
    destruct (year_mask (lo, hi) r) eqn:E; [|reflexivity].
    apply year_mask_spec in E. lia.
Qed.

(** ** Sums, columns and means *)

Lemma dropna_column (f : row -> R) (df : DataFrame) :
  dropna (column f df) = map f df.
Proof.
  unfold dropna, column. induction df as [|r df IH]; simpl; [reflexivity|].
  f_equal. exact IH.
Qed.

Lemma asarray_column (f : row -> R) (df : DataFrame) :
  asarray (column f df) = Some (map f df).
Proof.
  unfold column. induction df as [|r df IH]; simpl; [reflexivity|].
  rewrite IH. reflexivity.
Qed.

Lemma valid_pairs_column (f g : row -> R) (df : DataFrame) :
  valid_pairs (column f df) (column g df) = map (fun r => (f r, g r)) df.
Proof.
  unfold column. induction df as [|r df IH]; simpl; [reflexivity|].
  f_equal. exact IH.
Qed.

Lemma analyze_ok (view : DataFrame) (line : R * R) :
  polyfit (column total_co2_emissions view)
          (column pct_unable_to_afford_diet view) = Ok line ->
  analyze view =
  Ok {| avg_co2 := Series_mean (column total_co2_emissions view);
        delta_co2 :=
          fmul (Series_mean (pct_change (column total_co2_emissions view))) 100;
        avg_diet := Series_mean (column pct_unable_to_afford_diet view);
        delta_diet :=
          fmul (Series_mean (pct_change (column pct_unable_to_afford_diet view)))
               100;
        correlation := corr (column total_co2_emissions view)
                            (column pct_unable_to_afford_diet view);
        correlation_delta :=
          corr_label (corr (column total_co2_emissions view)
                           (column pct_unable_to_afford_diet view));
        data_points := length view;
        z := line |}.
Proof. intros H. unfold analyze. rewrite H. reflexivity. Qed.

Lemma analyze_raises (view : DataFrame) (e : exn) :
  polyfit (column total_co2_emissions view)
          (column pct_unable_to_afford_diet view) = Raise e ->
  analyze view = Raise e.
Proof. intros H. unfold analyze. rewrite H. reflexivity. Qed.

Lemma polyfit_columns (f g : row -> R) (view : DataFrame) :
  polyfit (column f view) (column g view) =
  polyfit_arrays (map f view) (map g view).
Proof. unfold polyfit. rewrite !asarray_column. reflexivity. Qed.

Lemma polyfit_arrays_full_rank (x y : list R) :
  x <> [] -> length x = length y ->
  INR (length x) * dot x x - Rsum x * Rsum x <> 0 ->
  polyfit_arrays x y =
  Ok ((INR (length x) * dot x y - Rsum x * Rsum y)
        / (INR (length x) * dot x x - Rsum x * Rsum x),
      (Rsum y * dot x x - Rsum x * dot x y)
        / (INR (length x) * dot x x - Rsum x * Rsum x)).
Proof.
  intros Hne Hlen Hdet. unfold polyfit_arrays.
  destruct x as [|x0 x]; [congruence|].
  rewrite <- Hlen, Nat.eqb_refl. simpl negb. cbv iota.
  change (length (x0 :: x) =? 0)%nat with false. cbv iota.
  destruct (Req_dec_T _ 0) as [E|_]; [contradiction|reflexivity].
Qed.

(** C4. On the seven-row example table the range (2019, 2021) selects
    exactly the rows of 2019, 2020 and 2021; the run on that view completes
    and reports 3 data points, a mean CO2 of 13241/30 (441.37 to two
    decimals) and a mean diet unaffordability of 1831/30 (61.03 to two
    decimals). *)
Theorem example_scenario :
  filtered_df example_df (2019, 2021)%Z =
    [mkRow 2019 464.1 60.2; mkRow 2020 434.1 61.8; mkRow 2021 425.9 61.1] /\
  exists m co2 diet,
    analyze (filtered_df example_df (2019, 2021)%Z) = Ok m /\
    data_points m = 3%nat /\
    avg_co2 m = Some co2 /\ co2 = 13241 / 30 /\ Rabs (co2 - 441.37) < 0.005 /\
    avg_diet m = Some diet /\ diet = 1831 / 30 /\ Rabs (diet - 61.03) < 0.005.
Proof.
  split; [reflexivity|].
  change (filtered_df example_df (2019, 2021)%Z) with
    [mkRow 2019 464.1 60.2; mkRow 2020 434.1 61.8; mkRow 2021 425.9 61.1].
  set (view := [mkRow 2019 464.1 60.2; mkRow 2020 434.1 61.8;
                mkRow 2021 425.9 61.1]).
  assert (Hfit : exists line,
            polyfit (column total_co2_emissions view)
                    (column pct_unable_to_afford_diet view) = Ok line).
  { eexists. rewrite polyfit_columns.
    apply (polyfit_arrays_full_rank [464.1; 434.1; 425.9] [60.2; 61.8; 61.1]);
      [discriminate|reflexivity|].
    unfold dot, Rsum. simpl. lra. }
  destruct Hfit as [line Hfit].
  pose proof (analyze_ok view line Hfit) as Hm.
  set (m := mkMetrics _ _ _ _ _ _ _ _) in Hm.
  assert (Hn : data_points m = 3%nat) by reflexivity.
  assert (Hco2 : avg_co2 m = Series_mean (column total_co2_emissions view))
    by reflexivity.
  assert (Hdiet : avg_diet m
                  = Series_mean (column pct_unable_to_afford_diet view))
    by reflexivity.
  clearbody m.
  exists m, (13241 / 30), (1831 / 30).
  split; [exact Hm|]. split; [exact Hn|].
  assert (E1 : Rmean [464.1; 434.1; 425.9] = 13241 / 30)
    by (unfold Rmean, Rsum; simpl; lra).
  assert (E2 : Rmean [60.2; 61.8; 61.1] = 1831 / 30)
    by (unfold Rmean, Rsum; simpl; lra).
  split; [rewrite Hco2; unfold Series_mean; rewrite dropna_column; simpl;
          f_equal; exact E1|].
  split; [reflexivity|].
  split; [apply Rabs_def1; lra|].
  split; [rewrite Hdiet; unfold Series_mean; rewrite dropna_column; simpl;
          f_equal; exact E2|].
  split; [reflexivity|].
  apply Rabs_def1; lra.
Qed.

(** The smoke test's own sample gives the same two-decimal means on the
    same range, and the means it prints over all seven rows (lines 23-24)
    are 429.41 and 60.97. *)
Lemma smoke_test_scenario :
  map year (filtered_df data (2019, 2021)%Z) = [2019; 2020; 2021]%Z /\
  (exists co2,
     Series_mean (column total_co2_emissions (filtered_df data (2019, 2021)%Z))
     = Some co2 /\ Rabs (co2 - 441.37) < 0.005) /\
  (exists co2,
     Series_mean (column total_co2_emissions data) = Some co2 /\
     Rabs (co2 - 429.41) < 0.005) /\
  (exists diet,
     Series_mean (column pct_unable_to_afford_diet data) = Some diet /\
     Rabs (diet - 60.97) < 0.005).
Proof.
  split; [reflexivity|].
  change (filtered_df data (2019, 2021)%Z) with
    [mkRow 2019 464.114 60.2; mkRow 2020 434.067 61.8; mkRow 2021 425.918 61.1].
  unfold Series_mean. rewrite !dropna_column. unfold data. simpl map.
  repeat split; eexists; (split; [reflexivity|]);
    unfold Rmean, Rsum; simpl; apply Rabs_def1; lra.
Qed.

(** ** Percentage change *)

Lemma zip_shift_quotients (x0 : R) (rest : list R) :
  zip_with fdiv (map Some rest) (removelast (map Some (x0 :: rest))) =
  map Some (quotients x0 rest).
Proof.
  revert x0. induction rest as [|x rest IH]; intros x0.
  - reflexivity.
  - change (map Some (x0 :: x :: rest))
      with (Some x0 :: map Some (x :: rest)).
    change (removelast (Some x0 :: map Some (x :: rest)))
      with (Some x0 :: removelast (map Some (x :: rest))).
    change (zip_with fdiv (map Some (x :: rest))
              (Some x0 :: removelast (map Some (x :: rest))))
      with (Some (x / x0)
              :: zip_with fdiv (map Some rest)
                   (removelast (map Some (x :: rest)))).
    rewrite IH. reflexivity.
Qed.

Lemma dropna_map_Some (xs : list R) : dropna (map Some xs) = xs.
Proof.
  unfold dropna. induction xs as [|x xs IH]; simpl; [reflexivity|].
  f_equal. exact IH.
Qed.

Lemma pct_change_values (x0 : R) (rest : list R) :
  pct_change (map Some (x0 :: rest)) =
  None :: map Some (map (fun q => q - 1) (quotients x0 rest)).
Proof.
  unfold pct_change.
  change (shift (map Some (x0 :: rest)))
    with (None :: removelast (map Some (x0 :: rest))).
  change (zip_with fdiv (map Some (x0 :: rest))
            (None :: removelast (map Some (x0 :: rest))))
    with (fdiv (Some x0) None
            :: zip_with fdiv (map Some rest)
                 (removelast (map Some (x0 :: rest)))).
  rewrite zip_shift_quotients. simpl. f_equal.
  rewrite !map_map. reflexivity.
Qed.


Lemma column_map (f : row -> R) (df : DataFrame) :
  column f df = map Some (map f df).
Proof. unfold column. rewrite map_map. reflexivity. Qed.






(** *** Where a value is zero *)



Lemma Ieee_sum_Num (l : list R) : Ieee.sum (map Ieee.Num l) = Ieee.Num (Rsum l).
Proof.
  unfold Ieee.sum. induction l as [|x l IH]; simpl; [reflexivity|].
  rewrite IH. reflexivity.
Qed.

Lemma Ieee_mean_Num (l : list R) :
  Ieee.mean (Ieee.NaN :: map Ieee.Num l)
  = Ieee.of_float (match l with [] => None | _ => Some (Rmean l) end).
Proof.
  unfold Ieee.mean. simpl filter.
  assert (E : filter Ieee.notna (map Ieee.Num l) = map Ieee.Num l).
  { apply filter_all. intros v Hv. apply in_map_iff in Hv.
    destruct Hv as (r & <- & _). reflexivity. }
  rewrite E. destruct l as [|x l]; [reflexivity|].
  change (map Ieee.Num (x :: l)) with (Ieee.Num x :: map Ieee.Num l).
  cbv iota. change (Ieee.Num x :: map Ieee.Num l) with (map Ieee.Num (x :: l)).
  rewrite Ieee_sum_Num, length_map. reflexivity.
Qed.

Lemma Ieee_zip_quotients (x0 : R) (rest : list R) :
  Forall (fun v => v <> 0) (removelast (x0 :: rest)) ->
  zip_with Ieee.div (map Some rest) (removelast (map Some (x0 :: rest)))
  = map Ieee.Num (quotients x0 rest).
Proof.
  revert x0. induction rest as [|x rest IH]; intros x0 Hnz.
  - reflexivity.
  - change (removelast (x0 :: x :: rest))
      with (x0 :: removelast (x :: rest)) in Hnz.
    inversion Hnz as [|? ? Hx0 Hrest]; subst.
    change (map Some (x0 :: x :: rest))
      with (Some x0 :: map Some (x :: rest)).
    change (removelast (Some x0 :: map Some (x :: rest)))
      with (Some x0 :: removelast (map Some (x :: rest))).
    change (zip_with Ieee.div (map Some (x :: rest))
              (Some x0 :: removelast (map Some (x :: rest))))
      with (Ieee.div (Some x) (Some x0)
              :: zip_with Ieee.div (map Some rest)
                   (removelast (map Some (x :: rest)))).
    rewrite (IH x Hrest). simpl quotients. simpl map. f_equal.
    unfold Ieee.div. destruct (Req_dec_T x0 0); [contradiction|reflexivity].
Qed.

(** Where no value that is followed by another is zero, the division of
    the doubles is the real one: the mean of the percentage changes
    computed with it is the mean of the real-valued model. *)
Lemma Ieee_pct_change_mean (x : list R) :
  Forall (fun v => v <> 0) (removelast x) ->
  Ieee.mean (Ieee.pct_change (map Some x))
  = Ieee.of_float (Series_mean (pct_change (map Some x))).
Proof.
  intros Hnz. destruct x as [|x0 rest]; [reflexivity|].
  rewrite pct_change_values. unfold Series_mean.
  change (dropna (None :: map Some (map (fun q => q - 1) (quotients x0 rest))))
    with (dropna (map Some (map (fun q => q - 1) (quotients x0 rest)))).
  rewrite dropna_map_Some.
  unfold Ieee.pct_change.
  change (shift (map Some (x0 :: rest)))
    with (None :: removelast (map Some (x0 :: rest))).
  change (zip_with Ieee.div (map Some (x0 :: rest))
            (None :: removelast (map Some (x0 :: rest))))
    with (Ieee.div (Some x0) None
            :: zip_with Ieee.div (map Some rest)
                 (removelast (map Some (x0 :: rest)))).
  rewrite (Ieee_zip_quotients x0 rest Hnz). simpl map at 1.
  rewrite map_map.
  replace (map (fun r => Ieee.sub (Ieee.Num r) 1) (quotients x0 rest))
    with (map Ieee.Num (map (fun q => q - 1) (quotients x0 rest)))
    by (rewrite map_map; reflexivity).
  change (Ieee.sub (Ieee.div (Some x0) None) 1) with Ieee.NaN.
  rewrite Ieee_mean_Num.
  destruct (map (fun q => q - 1) (quotients x0 rest)); reflexivity.
Qed.

(** ** Dot products, covariance and the Pearson coefficient *)

Lemma INR_length_pos {A : Type} (l : list A) : l <> [] -> 0 < INR (length l).
Proof.
  intros Hne. destruct l; [congruence|]. apply lt_0_INR. simpl. lia.
Qed.

Lemma INR_length_two {A : Type} (l : list A) :
  (2 <= length l)%nat -> 2 <= INR (length l).
Proof. intros H. apply le_INR in H. simpl in H. lra. Qed.

Lemma dot_comm (u v : list R) : dot u v = dot v u.
Proof.
  unfold dot. revert v. induction u as [|a u IH]; intros [|b v]; simpl;
    try reflexivity.
  rewrite IH. ring.
Qed.

Lemma dot_self_nonneg (u : list R) : 0 <= dot u u.
Proof.
  unfold dot. induction u as [|a u IH]; simpl; [lra|].
  pose proof (Rle_0_sqr a) as Ha. unfold Rsqr in Ha. lra.
Qed.

(** Cauchy-Schwarz for the truncated dot product. *)
Lemma dot_cauchy_schwarz (u v : list R) :
  dot u v * dot u v <= dot u u * dot v v.
Proof.
  revert v. induction u as [|a u IH]; intros [|b v].
  - unfold dot; simpl; lra.
  - unfold dot at 1 2 3; simpl. lra.
  - unfold dot at 1 2 4; simpl. lra.
  - specialize (IH v).
    pose proof (dot_self_nonneg u) as HA.
    pose proof (dot_self_nonneg v) as HB.
    change (dot (a :: u) (b :: v)) with (a * b + dot u v).
    change (dot (a :: u) (a :: u)) with (a * a + dot u u).
    change (dot (b :: v) (b :: v)) with (b * b + dot v v).
    set (S := dot u v) in *. set (A := dot u u) in *. set (B := dot v v) in *.
    assert (T : 2 * (a * b * S) <= a * a * B + b * b * A).
    { destruct (Req_dec_T A 0) as [A0|A0].
      - assert (S0 : S = 0) by nra. rewrite S0, A0. nra.
      - assert (Apos : 0 < A) by lra.
        assert (K : 0 <= A * (a * a * B + b * b * A - 2 * (a * b * S))).
        { replace (A * (a * a * B + b * b * A - 2 * (a * b * S)))
            with (a * a * (A * B - S * S) + (a * S - b * A) * (a * S - b * A))
            by ring.
          pose proof (Rle_0_sqr (a * S - b * A)) as H1. unfold Rsqr in H1.
          pose proof (Rle_0_sqr a) as H2. unfold Rsqr in H2.
          nra. }
        nra. }
    nra.
Qed.

Lemma dev_length (xs : list R) : length (dev xs) = length xs.
Proof. unfold dev. apply length_map. Qed.

Lemma np_cov_comm (u v : list R) :
  length u = length v -> np_cov u v = np_cov v u.
Proof.
  intros H. unfold np_cov. rewrite H, dot_comm. reflexivity.
Qed.

Lemma pearson_comm (x y : list R) :
  length x = length y -> pearson x y = pearson y x.
Proof.
  intros H. unfold pearson. rewrite (np_cov_comm x y H).
  unfold Rdiv. ring.
Qed.

Lemma corrcoef_comm (x y : list R) :
  length x = length y -> corrcoef x y = corrcoef y x.
Proof.
  intros H. unfold corrcoef. rewrite (pearson_comm x y H), H.
  destruct (length y <=? 1)%nat; [reflexivity|].
  destruct (Req_dec_T (np_cov x x) 0), (Req_dec_T (np_cov y y) 0); reflexivity.
Qed.

Lemma valid_pairs_swap (a b : Series) :
  valid_pairs b a = map (fun p => (snd p, fst p)) (valid_pairs a b).
Proof.
  revert b. induction a as [|[x|] a IH]; intros [|[y|] b]; simpl;
    try reflexivity; try (rewrite IH; reflexivity).
Qed.

(** C6. The correlation that [Series.corr] returns does not depend on
    which of the two series is the receiver: [X.corr(Y) = Y.corr(X)], for
    the two columns of any view and for any two series. *)
Theorem corr_symmetric :
  (forall view : DataFrame,
      corr (column total_co2_emissions view)
           (column pct_unable_to_afford_diet view)
      = corr (column pct_unable_to_afford_diet view)
             (column total_co2_emissions view)) /\
  (forall a b : Series, corr a b = corr b a).
Proof.
  assert (H : forall a b : Series, corr a b = corr b a).
  { intros a b. unfold corr. rewrite (valid_pairs_swap a b), !map_map.
    simpl. apply corrcoef_comm. rewrite !length_map. reflexivity. }
  split; [intros view; apply H | exact H].
Qed.

Lemma dot_self_zero (u : list R) : dot u u = 0 -> Forall (fun a => a = 0) u.
Proof.
  induction u as [|a u IH]; intros H; [constructor|].
  change (dot (a :: u) (a :: u)) with (a * a + dot u u) in H.
  pose proof (dot_self_nonneg u) as Hu.
  pose proof (Rle_0_sqr a) as Ha. unfold Rsqr in Ha.
  constructor; [nra|]. apply IH. nra.
Qed.

Lemma dot_zeros (u : list R) : Forall (fun a => a = 0) u -> dot u u = 0.
Proof.
  induction 1 as [|a u Ha _ IH]; [reflexivity|].
  change (dot (a :: u) (a :: u)) with (a * a + dot u u).
  rewrite IH, Ha. ring.
Qed.

Lemma Rsum_constant (c : R) (xs : list R) :
  Forall (fun a => a = c) xs -> Rsum xs = INR (length xs) * c.
Proof.
  induction 1 as [|a xs Ha _ IH].
  - simpl. ring.
  - change (Rsum (a :: xs)) with (a + Rsum xs).
    change (length (a :: xs)) with (S (length xs)).
    rewrite S_INR, IH, Ha. ring.
Qed.

Lemma variance_zero_iff (xs : list R) :
  (2 <= length xs)%nat -> (np_cov xs xs = 0 <-> constant xs).
Proof.
  intros Hn.
  assert (Hn1 : 0 < INR (length xs) - 1).
  { apply le_INR in Hn. simpl in Hn. lra. }
  unfold np_cov. split.
  - intros H.
    assert (D : dot (dev xs) (dev xs) = 0).
    { apply (Rmult_eq_reg_r (/ (INR (length xs) - 1))).
      - unfold Rdiv in H. rewrite H. ring.
      - apply Rinv_neq_0_compat. lra. }
    apply dot_self_zero in D. unfold dev in D. rewrite Forall_map in D.
    rewrite Forall_forall in D.
    intros a b Ha Hb. apply D in Ha. apply D in Hb. lra.
  - intros Hc.
    assert (D : Forall (fun a => a = 0) (dev xs)).
    { destruct xs as [|c xs]; [constructor|].
      assert (Hall : Forall (fun a => a = c) (c :: xs)).
      { apply Forall_forall. intros a Ha. apply Hc; [exact Ha|left; reflexivity]. }
      assert (Hm : Rmean (c :: xs) = c).
      { unfold Rmean. rewrite (Rsum_constant c _ Hall). field. lra. }
      unfold dev. rewrite Forall_map, Hm.
      eapply Forall_impl; [|exact Hall]. simpl. intros a ->. ring. }
    rewrite (dot_zeros _ D). unfold Rdiv. ring.
Qed.

Lemma np_cov_self_nonneg (xs : list R) :
  (2 <= length xs)%nat -> 0 <= np_cov xs xs.
Proof.
  intros Hn. apply le_INR in Hn. simpl in Hn.
  unfold np_cov. apply Rmult_le_pos; [apply dot_self_nonneg|].
  apply Rlt_le, Rinv_0_lt_compat. lra.
Qed.

Lemma np_cov_cauchy_schwarz (x y : list R) :
  length x = length y -> (2 <= length x)%nat ->
  np_cov x y * np_cov x y <= np_cov x x * np_cov y y.
Proof.
  intros Hlen Hn. apply le_INR in Hn. simpl in Hn.
  unfold np_cov. rewrite <- Hlen.
  pose proof (dot_cauchy_schwarz (dev x) (dev y)) as CS.
  set (k := / (INR (length x) - 1)).
  assert (Hk : 0 < k) by (apply Rinv_0_lt_compat; lra).
  unfold Rdiv. fold k.
  assert (Hkk : 0 <= k * k) by nra.
  nra.
Qed.

Lemma pearson_range (x y : list R) :
  length x = length y -> (2 <= length x)%nat ->
  np_cov x x <> 0 -> np_cov y y <> 0 ->
  -1 <= pearson x y <= 1.
Proof.
  intros Hlen Hn Hx Hy.
  pose proof (np_cov_self_nonneg x Hn) as Px.
  assert (Hn' : (2 <= length y)%nat) by lia.
  pose proof (np_cov_self_nonneg y Hn') as Py.
  pose proof (np_cov_cauchy_schwarz x y Hlen Hn) as CS.
  assert (Sx : 0 < sqrt (np_cov x x)) by (apply sqrt_lt_R0; lra).
  assert (Sy : 0 < sqrt (np_cov y y)) by (apply sqrt_lt_R0; lra).
  pose proof (sqrt_sqrt _ Px) as Ex. pose proof (sqrt_sqrt _ Py) as Ey.
  unfold pearson.
  set (s := sqrt (np_cov x x)) in *. set (t := sqrt (np_cov y y)) in *.
  set (c := np_cov x y) in *.
  assert (Hst : 0 < s * t) by nra.
  assert (Hc : c * c <= (s * t) * (s * t)).
  { replace (s * t * (s * t)) with ((s * s) * (t * t)) by ring.
    rewrite Ex, Ey. exact CS. }
  assert (E : c / s / t = c / (s * t)) by (field; lra).
  rewrite E.
  split.
  - apply (Rmult_le_reg_r (s * t)); [exact Hst|].
    replace (c / (s * t) * (s * t)) with c by (field; lra). nra.
  - apply (Rmult_le_reg_r (s * t)); [exact Hst|].
    replace (c / (s * t) * (s * t)) with c by (field; lra). nra.
Qed.

Lemma clip_id (lo hi x : R) : lo <= x <= hi -> clip lo hi x = x.
Proof.
  intros [H1 H2]. unfold clip.
  rewrite (Rmax_right lo x H1). apply Rmin_right. exact H2.
Qed.

Lemma clip_range (lo hi x : R) : lo <= hi -> lo <= clip lo hi x <= hi.
Proof.
  intros H. unfold clip. split.
  - apply Rmin_glb; [exact H | apply Rmax_l].
  - apply Rmin_l.
Qed.

Lemma corrcoef_defined (x y : list R) (r : R) :
  length x = length y ->
  (corrcoef x y = Some r <->
   (2 <= length x)%nat /\ ~ constant x /\ ~ constant y /\ r = pearson x y).
Proof.
  intros Hlen. unfold corrcoef.
  destruct (length x <=? 1)%nat eqn:L.
  - apply Nat.leb_le in L. split; [discriminate | intros [? _]; lia].
  - apply Nat.leb_gt in L.
    assert (Hx : (2 <= length x)%nat) by lia.
    assert (Hy : (2 <= length y)%nat) by lia.
    pose proof (variance_zero_iff x Hx) as Vx.
    pose proof (variance_zero_iff y Hy) as Vy.
    destruct (Req_dec_T (np_cov x x) 0) as [Zx|Nx].
    { split; [discriminate | intros (_ & H & _); tauto]. }
    destruct (Req_dec_T (np_cov y y) 0) as [Zy|Ny].
    { split; [discriminate | intros (_ & _ & H & _); tauto]. }
    rewrite (clip_id _ _ _ (pearson_range x y Hlen Hx Nx Ny)).
    split.
    + intros H. injection H as <-. tauto.
    + intros (_ & _ & _ & ->). reflexivity.
Qed.

Lemma corr_columns (f g : row -> R) (view : DataFrame) :
  corr (column f view) (column g view) = corrcoef (map f view) (map g view).
Proof.
  unfold corr. rewrite valid_pairs_column, !map_map. reflexivity.
Qed.

(** The converse of C10's premise: with two rows or more and neither
    column constant, the correlation is a number. *)
Lemma correlation_defined (view : DataFrame) :
  (2 <= length view)%nat ->
  ~ constant (map total_co2_emissions view) ->
  ~ constant (map pct_unable_to_afford_diet view) ->
  corr (column total_co2_emissions view)
       (column pct_unable_to_afford_diet view)
  = Some (pearson (map total_co2_emissions view)
                  (map pct_unable_to_afford_diet view)).
Proof.
  intros Hn Hx Hy. rewrite corr_columns.
  apply corrcoef_defined; rewrite !length_map; auto.
Qed.

(** C10. Whenever the correlation of a view is a number, the view has at
    least two rows, neither column is constant, the number is the Pearson
    coefficient itself (the clip to [[-1, 1]] changes nothing) and it lies
    in [[-1, 1]]; the label of the metric is "Negative" exactly when it is
    below 0 and "Positive" exactly when it is 0 or more. *)
Theorem correlation_range (view : DataFrame) (r : R) :
  corr (column total_co2_emissions view)
       (column pct_unable_to_afford_diet view) = Some r ->
  -1 <= r <= 1 /\
  (2 <= length view)%nat /\
  ~ constant (map total_co2_emissions view) /\
  ~ constant (map pct_unable_to_afford_diet view) /\
  r = pearson (map total_co2_emissions view)
              (map pct_unable_to_afford_diet view) /\
  (corr_label (Some r) = "Negative"%string <-> r < 0) /\
  (corr_label (Some r) = "Positive"%string <-> 0 <= r).
Proof.
  rewrite corr_columns. intros H.
  pose proof H as H'.
  apply corrcoef_defined in H'; [|rewrite !length_map; reflexivity].
  destruct H' as (Hn & Hx & Hy & Hr).
  rewrite length_map in Hn.
  split.
  { unfold corrcoef in H.
    destruct (length (map total_co2_emissions view) <=? 1)%nat;
      [discriminate|].
    destruct (Req_dec_T _ 0); [discriminate|].
    destruct (Req_dec_T _ 0); [discriminate|].
    injection H as <-. apply clip_range. lra. }
  repeat (split; [assumption|]).
  unfold corr_label. destruct (Rlt_dec r 0) as [Hneg|Hpos]; split; split;
    intros; try assumption; try reflexivity; try discriminate; lra.
Qed.

(** ** The least-squares line *)

Lemma dot_cons (a b : R) (u v : list R) :
  dot (a :: u) (b :: v) = a * b + dot u v.
Proof. reflexivity. Qed.

Lemma Rsum_cons (a : R) (u : list R) : Rsum (a :: u) = a + Rsum u.
Proof. reflexivity. Qed.

Lemma dot_shifted (c d : R) (x y : list R) :
  length x = length y ->
  dot (map (fun v => v - c) x) (map (fun v => v - d) y) =
  dot x y - d * Rsum x - c * Rsum y + INR (length x) * c * d.
Proof.
  revert y. induction x as [|a x IH]; intros [|b y] Hlen; try discriminate.
  - unfold dot; simpl. ring.
  - injection Hlen as Hlen.
    change (map (fun v => v - c) (a :: x))
      with ((a - c) :: map (fun v => v - c) x).
    change (map (fun v => v - d) (b :: y))
      with ((b - d) :: map (fun v => v - d) y).
    rewrite !dot_cons, !Rsum_cons, (IH y Hlen).
    change (length (a :: x)) with (S (length x)). rewrite S_INR. ring.
Qed.

Lemma dot_dev (x y : list R) :
  x <> [] -> length x = length y ->
  INR (length x) * dot (dev x) (dev y) =
  INR (length x) * dot x y - Rsum x * Rsum y.
Proof.
  intros Hne Hlen.
  pose proof (INR_length_pos x Hne) as Hn.
  unfold dev. rewrite (dot_shifted _ _ x y Hlen).
  unfold Rmean. rewrite <- Hlen. field. lra.
Qed.

Lemma short_constant (xs : list R) : (length xs <= 1)%nat -> constant xs.
Proof.
  destruct xs as [|a [|b xs]]; simpl; intros H a' b' Ha Hb.
  - destruct Ha.
  - destruct Ha as [<-|[]], Hb as [<-|[]]. reflexivity.
  - lia.
Qed.

Lemma not_constant_two (xs : list R) : ~ constant xs -> (2 <= length xs)%nat.
Proof.
  intros Hnc. destruct (le_lt_dec (length xs) 1) as [H|H]; [|lia].
  elim Hnc. apply short_constant. exact H.
Qed.

Lemma det_variance (x : list R) :
  (2 <= length x)%nat ->
  INR (length x) * dot x x - Rsum x * Rsum x =
  INR (length x) * (INR (length x) - 1) * np_cov x x.
Proof.
  intros Hn.
  assert (Hne : x <> []) by (destruct x; [simpl in Hn; lia | discriminate]).
  rewrite <- (dot_dev x x Hne eq_refl).
  apply le_INR in Hn. simpl in Hn.
  unfold np_cov. field. lra.
Qed.

(** The closed form of the specification: slope = covariance / variance,
    intercept = mean y - slope * mean x, whenever [x] is not constant. *)
Lemma polyfit_closed_form (x y : list R) :
  length x = length y -> ~ constant x ->
  polyfit_arrays x y = Ok (spec_trend_line x y).
Proof.
  intros Hlen Hnc. unfold spec_trend_line.
  pose proof (not_constant_two x Hnc) as Hn.
  assert (Hne : x <> []) by (destruct x; [simpl in Hn; lia | discriminate]).
  assert (Hv : np_cov x x <> 0).
  { intros H. apply Hnc. apply variance_zero_iff; assumption. }
  pose proof (det_variance x Hn) as Hdet.
  pose proof (dot_dev x y Hne Hlen) as Hxy.
  pose proof (dot_dev x x Hne eq_refl) as Hxx.
  assert (Hn' : 2 <= INR (length x)) by (apply le_INR in Hn; simpl in Hn; lra).
  assert (Hd : INR (length x) * dot x x - Rsum x * Rsum x <> 0).
  { rewrite Hdet. apply Rmult_integral_contrapositive_currified;
      [apply Rmult_integral_contrapositive_currified; lra | exact Hv]. }
  rewrite (polyfit_arrays_full_rank x y Hne Hlen Hd).
  assert (Dxx : dot (dev x) (dev x) <> 0).
  { intros E. apply Hd. rewrite <- Hxx, E. ring. }
  assert (Slope :
    (INR (length x) * dot x y - Rsum x * Rsum y)
      / (INR (length x) * dot x x - Rsum x * Rsum x)
    = np_cov x y / np_cov x x).
  { rewrite <- Hxy, <- Hxx. unfold np_cov. field. repeat split; lra. }
  f_equal. f_equal; [exact Slope|].
  rewrite <- Slope. unfold Rmean. rewrite <- Hlen. field. split; lra.
Qed.

Lemma det_nonzero (x : list R) :
  ~ constant x -> INR (length x) * dot x x - Rsum x * Rsum x <> 0.
Proof.
  intros Hnc.
  pose proof (not_constant_two x Hnc) as Hn.
  assert (Hv : np_cov x x <> 0).
  { intros H. apply Hnc. apply variance_zero_iff; assumption. }
  rewrite (det_variance x Hn).
  apply le_INR in Hn. simpl in Hn.
  apply Rmult_integral_contrapositive_currified;
    [apply Rmult_integral_contrapositive_currified; lra | exact Hv].
Qed.

Lemma Rsum_affine (a b : R) (x : list R) :
  Rsum (map (fun v => a * v + b) x) = a * Rsum x + INR (length x) * b.
Proof.
  induction x as [|c x IH].
  - simpl. ring.
  - change (length (c :: x)) with (S (length x)). rewrite S_INR.
    simpl map. rewrite !Rsum_cons, IH. ring.
Qed.

Lemma dot_affine_r (a b : R) (u x : list R) :
  length u = length x ->
  dot u (map (fun v => a * v + b) x) = a * dot u x + b * Rsum u.
Proof.
  revert x. induction u as [|c u IH]; intros [|d x] Hlen; try discriminate.
  - unfold dot; simpl. ring.
  - injection Hlen as Hlen. simpl map.
    rewrite !dot_cons, Rsum_cons, (IH x Hlen). ring.
Qed.

Lemma dot_affine_both (a b : R) (x : list R) :
  dot (map (fun v => a * v + b) x) (map (fun v => a * v + b) x) =
  a * a * dot x x + 2 * a * b * Rsum x + INR (length x) * b * b.
Proof.
  induction x as [|c x IH].
  - unfold dot; simpl. ring.
  - change (length (c :: x)) with (S (length x)). rewrite S_INR.
    simpl map. rewrite !dot_cons, Rsum_cons, IH. ring.
Qed.

(** Data that lie on a line give that line back. *)
Lemma polyfit_recovers_line (a b : R) (x : list R) :
  ~ constant x ->
  polyfit_arrays x (map (fun v => a * v + b) x) = Ok (a, b).
Proof.
  intros Hnc.
  pose proof (det_nonzero x Hnc) as Hd.
  assert (Hne : x <> []).
  { intros ->. apply Hnc. intros ? ? []. }
  rewrite (polyfit_arrays_full_rank x _ Hne); [|now rewrite length_map|exact Hd].
  rewrite Rsum_affine, (dot_affine_r a b x x eq_refl).
  f_equal. f_equal; field; exact Hd.
Qed.

(** ... and, when the line rises, a Pearson coefficient of exactly 1. *)
Lemma pearson_on_line (a b : R) (x : list R) :
  0 < a -> ~ constant x ->
  pearson x (map (fun v => a * v + b) x) = 1 /\
  ~ constant (map (fun v => a * v + b) x).
Proof.
  intros Ha Hnc. set (y := map (fun v => a * v + b) x).
  assert (Hlen : length x = length y) by (unfold y; now rewrite length_map).
  pose proof (not_constant_two x Hnc) as Hn.
  assert (Hne : x <> []) by (destruct x; [simpl in Hn; lia | discriminate]).
  assert (Hney : y <> []) by (unfold y; destruct x; [congruence | discriminate]).
  assert (Hv : np_cov x x <> 0).
  { intros H. apply Hnc. apply variance_zero_iff; assumption. }
  pose proof (np_cov_self_nonneg x Hn) as Hv0.
  assert (Hn' : 2 <= INR (length x)) by (apply le_INR in Hn; simpl in Hn; lra).
  pose proof (dot_dev x x Hne eq_refl) as Hxx.
  pose proof (dot_dev x y Hne Hlen) as Hxy.
  pose proof (dot_dev y y Hney eq_refl) as Hyy.
  rewrite <- Hlen in Hyy.
  unfold y in Hxy, Hyy.
  rewrite Rsum_affine in Hxy, Hyy.
  rewrite (dot_affine_r a b x x eq_refl) in Hxy.
  rewrite dot_affine_both in Hyy. fold y in Hxy, Hyy.
  assert (Dxy : dot (dev x) (dev y) = a * dot (dev x) (dev x)).
  { apply (Rmult_eq_reg_l (INR (length x))); [|lra]. rewrite Hxy.
    transitivity (a * (INR (length x) * dot (dev x) (dev x)));
      [rewrite Hxx; ring | ring]. }
  assert (Dyy : dot (dev y) (dev y) = a * a * dot (dev x) (dev x)).
  { apply (Rmult_eq_reg_l (INR (length x))); [|lra]. rewrite Hyy.
    transitivity (a * a * (INR (length x) * dot (dev x) (dev x)));
      [rewrite Hxx; ring | ring]. }
  assert (Cxy : np_cov x y = a * np_cov x x).
  { unfold np_cov. rewrite Dxy. unfold Rdiv. ring. }
  assert (Cyy : np_cov y y = a * a * np_cov x x).
  { unfold np_cov. rewrite <- Hlen, Dyy. unfold Rdiv. ring. }
  split.
  - unfold pearson. rewrite Cxy, Cyy.
    rewrite sqrt_mult by nra. rewrite (sqrt_square a) by lra.
    assert (Sx : 0 < sqrt (np_cov x x)) by (apply sqrt_lt_R0; lra).
    pose proof (sqrt_sqrt _ Hv0) as Ex.
    rewrite <- Ex at 1. field. split; lra.
  - intros Hc. apply (variance_zero_iff y) in Hc; [|lia].
    rewrite Cyy in Hc. apply Hv.
    destruct (Rmult_integral _ _ Hc) as [H|H]; [nra | exact H].
Qed.

Lemma one_to_five_not_constant : ~ constant [1; 2; 3; 4; 5].
Proof.
  intros H. specialize (H 1 2). simpl in H.
  assert (E : 1 = 2) by (apply H; auto). lra.
Qed.

Lemma synthetic_columns :
  map total_co2_emissions synthetic_df = [1; 2; 3; 4; 5] /\
  map pct_unable_to_afford_diet synthetic_df
    = map (fun x => 2 * x + 3) [1; 2; 3; 4; 5].
Proof. split; reflexivity. Qed.

Lemma synthetic_correlation :
  corr (column total_co2_emissions synthetic_df)
       (column pct_unable_to_afford_diet synthetic_df) = Some 1.
Proof.
  destruct synthetic_columns as [Hx Hy].
  rewrite corr_columns, Hx, Hy.
  destruct (pearson_on_line 2 3 [1; 2; 3; 4; 5]) as [Hp Hncy];
    [lra | exact one_to_five_not_constant |].
  apply corrcoef_defined; [reflexivity|].
  repeat split;
    [simpl; lia | exact one_to_five_not_constant | exact Hncy
     | symmetry; exact Hp].
Qed.

(** The synthetic view is one on which C10 applies. *)
Lemma correlation_range_witness :
  corr (column total_co2_emissions synthetic_df)
       (column pct_unable_to_afford_diet synthetic_df) = Some 1 /\
  -1 <= 1 <= 1.
Proof.
  split; [exact synthetic_correlation|].
  exact (proj1 (correlation_range synthetic_df 1 synthetic_correlation)).
Defined.

(** C3. On the synthetic input x = 1..5, y = 2x + 3 the run completes; the
    fitted line has slope 2 and intercept 3, so the plotted trend is
    [2 x + 3]; the correlation is 1.  The fitted line is the closed form
    slope = covariance(x, y) / variance(x), intercept = mean(y) - slope *
    mean(x), there and on every view whose CO2 column is not constant. *)
Theorem synthetic_trend_line :
  map total_co2_emissions synthetic_df = [1; 2; 3; 4; 5] /\
  map pct_unable_to_afford_diet synthetic_df
    = map (fun x => 2 * x + 3) [1; 2; 3; 4; 5] /\
  (exists m,
    analyze synthetic_df = Ok m /\
    z m = (2, 3) /\
    (forall x, poly1d (z m) x = 2 * x + 3) /\
    correlation m = Some 1 /\
    z m = spec_trend_line (map total_co2_emissions synthetic_df)
                          (map pct_unable_to_afford_diet synthetic_df)) /\
  (forall view : DataFrame,
     ~ constant (map total_co2_emissions view) ->
     polyfit (column total_co2_emissions view)
             (column pct_unable_to_afford_diet view)
     = Ok (spec_trend_line (map total_co2_emissions view)
                           (map pct_unable_to_afford_diet view))).
Proof.
  destruct synthetic_columns as [Hx Hy].
  split; [exact Hx|]. split; [exact Hy|].
  pose proof one_to_five_not_constant as Hnc.
  assert (Hfit : polyfit_arrays (map total_co2_emissions synthetic_df)
                                (map pct_unable_to_afford_diet synthetic_df)
                 = Ok (2, 3)).
  { rewrite Hx, Hy. apply polyfit_recovers_line. exact Hnc. }
  split.
  - eexists. split; [apply analyze_ok; rewrite polyfit_columns; exact Hfit|].
    split; [reflexivity|]. split; [intros x; reflexivity|].
    split; [exact synthetic_correlation|]. cbn [z].
    rewrite polyfit_closed_form in Hfit.
    + congruence.
    + rewrite !length_map. reflexivity.
    + rewrite Hx. exact Hnc.
  - intros view Hv. rewrite polyfit_columns.
    apply polyfit_closed_form; [rewrite !length_map; reflexivity | exact Hv].
Qed.

(** *** The fit minimises the squared error *)

Lemma sse_expand (x y : list R) (a b : R) :
  length x = length y ->
  sse x y a b =
  dot y y - 2 * a * dot x y - 2 * b * Rsum y
  + a * a * dot x x + 2 * a * b * Rsum x + INR (length x) * b * b.
Proof.
  revert y. induction x as [|c x IH]; intros [|d y] Hlen; try discriminate.
  - unfold sse, dot; simpl. ring.
  - injection Hlen as Hlen.
    change (sse (c :: x) (d :: y) a b)
      with ((d - (a * c + b)) * (d - (a * c + b)) + sse x y a b).
    change (length (c :: x)) with (S (length x)).
    rewrite (IH y Hlen), !dot_cons, !Rsum_cons, S_INR. ring.
Qed.

Lemma dot_constant_l (c : R) (x y : list R) :
  Forall (fun v => v = c) x -> length x = length y ->
  dot x y = c * Rsum y.
Proof.
  intros H. revert y. induction H as [|a x Ha _ IH]; intros [|b y] Hlen;
    try discriminate.
  - unfold dot; simpl. ring.
  - injection Hlen as Hlen. rewrite dot_cons, Rsum_cons, (IH y Hlen), Ha. ring.
Qed.

Lemma det_zero_constant (x : list R) :
  x <> [] -> INR (length x) * dot x x - Rsum x * Rsum x = 0 ->
  Forall (fun v => v = Rmean x) x.
Proof.
  intros Hne Hd.
  pose proof (INR_length_pos x Hne) as Hn.
  rewrite <- (dot_dev x x Hne eq_refl) in Hd.
  assert (D : dot (dev x) (dev x) = 0).
  { destruct (Rmult_integral _ _ Hd); [lra | assumption]. }
  apply dot_self_zero in D. unfold dev in D. rewrite Forall_map in D.
  eapply Forall_impl; [|exact D]. simpl. intros v Hv. lra.
Qed.

Lemma polyfit_arrays_inv (x y : list R) (line : R * R) :
  polyfit_arrays x y = Ok line -> x <> [] /\ length x = length y.
Proof.
  unfold polyfit_arrays. destruct x as [|c x]; [discriminate|].
  destruct (length (c :: x) =? length y)%nat eqn:E; [|discriminate].
  apply Nat.eqb_eq in E. intros _. split; [discriminate | exact E].
Qed.

(** Whatever branch produced it, the fitted line solves the normal
    equations of the least-squares problem. *)
Lemma polyfit_normal_equations (x y : list R) (a b : R) :
  polyfit_arrays x y = Ok (a, b) ->
  a * dot x x + b * Rsum x = dot x y /\
  a * Rsum x + INR (length x) * b = Rsum y.
Proof.
  intros H. destruct (polyfit_arrays_inv x y _ H) as [Hne Hlen].
  pose proof (INR_length_pos x Hne) as Hn.
  unfold polyfit_arrays in H.
  destruct (length x =? 0)%nat; [discriminate|].
  destruct (negb (length x =? length y)%nat); [discriminate|].
  destruct (Req_dec_T (INR (length x) * dot x x - Rsum x * Rsum x) 0)
    as [Hd|Hd].
  - destruct (Req_dec_T (Rsum x) 0) as [Hs|Hs]; [discriminate|].
    injection H as Ha Hb.
    pose proof (det_zero_constant x Hne Hd) as Hc.
    pose proof (dot_constant_l _ x y Hc Hlen) as Exy.
    pose proof (dot_constant_l _ x x Hc eq_refl) as Exx.
    rewrite Exy, Exx, <- Ha, <- Hb. unfold Rmean.
    split; field; lra.
  - injection H as Ha Hb. rewrite <- Ha, <- Hb. split; field; exact Hd.
Qed.

Lemma Rsum_squares_nonneg (p q : R) (x : list R) :
  0 <= p * p * dot x x + 2 * p * q * Rsum x + INR (length x) * q * q.
Proof.
  induction x as [|c x IH].
  - unfold dot; simpl. lra.
  - change (length (c :: x)) with (S (length x)).
    rewrite dot_cons, Rsum_cons, S_INR.
    pose proof (Rle_0_sqr (p * c + q)) as H. unfold Rsqr in H. nra.
Qed.

Lemma polyfit_least_squares (x y : list R) (a b : R) :
  polyfit_arrays x y = Ok (a, b) ->
  forall a' b', sse x y a b <= sse x y a' b'.
Proof.
  intros H a' b'.
  destruct (polyfit_arrays_inv x y _ H) as [_ Hlen].
  destruct (polyfit_normal_equations x y a b H) as [N1 N2].
  rewrite !(sse_expand x y _ _ Hlen).
  pose proof (Rsum_squares_nonneg (a' - a) (b' - b) x) as Q.
  nra.
Qed.

(** *** The rank-deficient fit *)

Lemma polyfit_arrays_constant (c : R) (x y : list R) :
  x <> [] -> Forall (fun v => v = c) x -> length x = length y -> c <> 0 ->
  polyfit_arrays x y = Ok (Rmean y / (2 * c), Rmean y / 2).
Proof.
  intros Hne Hc Hlen Hc0.
  pose proof (INR_length_pos x Hne) as Hn.
  pose proof (Rsum_constant c x Hc) as Sx.
  pose proof (dot_constant_l c x x Hc eq_refl) as Sxx.
  unfold polyfit_arrays.
  destruct (length x =? 0)%nat eqn:E0.
  { apply Nat.eqb_eq in E0. destruct x; [congruence | discriminate]. }
  rewrite <- Hlen, Nat.eqb_refl. simpl negb. cbv iota.
  destruct (Req_dec_T (INR (length x) * dot x x - Rsum x * Rsum x) 0)
    as [_|Hd].
  - destruct (Req_dec_T (Rsum x) 0) as [Hs|_].
    + rewrite Sx in Hs. destruct (Rmult_integral _ _ Hs); lra.
    + unfold Rmean. rewrite <- Hlen, Sx. f_equal. f_equal; field; lra.
  - elim Hd. rewrite Sxx, Sx. ring.
Qed.

(** Among the lines that minimise the squared error over a constant [x],
    the one returned has the least norm in the column-scaled unknowns
    [(a * c, b)]. *)
Lemma polyfit_constant_min_norm (c : R) (x y : list R) (a b : R) :
  x <> [] -> Forall (fun v => v = c) x -> length x = length y -> c <> 0 ->
  polyfit_arrays x y = Ok (a, b) ->
  forall a' b',
    (forall a'' b'', sse x y a' b' <= sse x y a'' b'') ->
    (a * c) * (a * c) + b * b <= (a' * c) * (a' * c) + b' * b'.
Proof.
  intros Hne Hc Hlen Hc0 Hfit a' b' Hmin.
  pose proof (INR_length_pos x Hne) as Hn.
  pose proof (Rsum_constant c x Hc) as Sx.
  pose proof (dot_constant_l c x x Hc eq_refl) as Sxx.
  destruct (polyfit_normal_equations x y a b Hfit) as [N1 N2].
  rewrite (polyfit_arrays_constant c x y Hne Hc Hlen Hc0) in Hfit.
  injection Hfit as Ha Hb.
  specialize (Hmin a b).
  rewrite !(sse_expand x y _ _ Hlen), Sxx, Sx in Hmin.
  rewrite Sxx, Sx in N1. rewrite Sx in N2.
  set (n := INR (length x)) in *.
  assert (Hline : n * (((a' - a) * c + (b' - b)) * ((a' - a) * c + (b' - b)))
                  <= 0) by nra.
  assert (Hsq : ((a' - a) * c + (b' - b)) * ((a' - a) * c + (b' - b)) <= 0)
    by nra.
  assert (Hz : (a' - a) * c + (b' - b) = 0) by nra.
  assert (Hac : a * c = b).
  { rewrite <- Ha, <- Hb. field. exact Hc0. }
  pose proof (Rle_0_sqr (a' * c - b')) as Hsqr. unfold Rsqr in Hsqr.
  assert (Hsum : a' * c + b' = 2 * b) by lra.
  replace (a * c) with b by (symmetry; exact Hac).
  replace (b * b + b * b)
    with ((a' * c + b') * (a' * c + b') / 2) by (rewrite Hsum; field).
  lra.
Qed.

(** *** Views with fewer than two rows *)

Lemma polyfit_arrays_single (x y : R) :
  x <> 0 -> polyfit_arrays [x] [y] = Ok (y / (2 * x), y / 2).
Proof.
  intros Hx. unfold polyfit_arrays.
  change (length [x] =? 0)%nat with false.
  change (negb (length [x] =? length [y])%nat) with false. cbv iota.
  change (INR (length [x])) with 1.
  destruct (Req_dec_T (1 * dot [x] [x] - Rsum [x] * Rsum [x]) 0) as [_|Hd].
  - destruct (Req_dec_T (Rsum [x]) 0) as [Hs|_].
    + unfold Rsum in Hs; simpl in Hs. lra.
    + f_equal. unfold Rsum; simpl. f_equal; field; lra.
  - elim Hd. unfold dot, Rsum; simpl. ring.
Qed.

Lemma pct_change_mean_short (f : row -> R) (view : DataFrame) :
  (length view < 2)%nat -> Series_mean (pct_change (column f view)) = None.
Proof.
  destruct view as [|r [|r' view]]; simpl; intros H; [reflexivity..|lia].
Qed.

Lemma corr_short (f g : row -> R) (view : DataFrame) :
  (length view < 2)%nat -> corr (column f view) (column g view) = None.
Proof.
  intros H. rewrite corr_columns. unfold corrcoef. rewrite length_map.
  destruct (length view <=? 1)%nat eqn:E; [reflexivity|].
  apply Nat.leb_gt in E. lia.
Qed.

Lemma analyze_empty : analyze [] = Raise TypeError.
Proof. reflexivity. Qed.

Lemma Series_mean_single (f : row -> R) (r : row) :
  Series_mean (column f [r]) = Some (f r).
Proof.
  unfold Series_mean, column, Rmean, Rsum. simpl. f_equal. field.
Qed.

Lemma analyze_single (r : row) :
  total_co2_emissions r <> 0 ->
  analyze [r] =
  Ok {| avg_co2 := Some (total_co2_emissions r);
        delta_co2 := None;
        avg_diet := Some (pct_unable_to_afford_diet r);
        delta_diet := None;
        correlation := None;
        correlation_delta := "Positive";
        data_points := 1;
        z := (pct_unable_to_afford_diet r / (2 * total_co2_emissions r),
              pct_unable_to_afford_diet r / 2) |}.
Proof.
  intros Hx.
  rewrite (analyze_ok [r] (pct_unable_to_afford_diet r / (2 * total_co2_emissions r),
                           pct_unable_to_afford_diet r / 2)).
  - rewrite !Series_mean_single.
    rewrite !pct_change_mean_short by (simpl; lia).
    rewrite corr_short by (simpl; lia). reflexivity.
  - rewrite polyfit_columns. apply polyfit_arrays_single. exact Hx.
Qed.

(** C2, as the script has it.  On a view with fewer than two rows both
    percentage-change means and the correlation are NaN, and computing
    them raises nothing.  The trend line is another matter: on the empty
    view [np.polyfit] raises [TypeError] and the run stops there; on a
    one-row view with a non-zero CO2 value the run completes and the
    fitted "line" is a pair of numbers, slope [y / (2 x)] and intercept
    [y / 2], not an undefined value. *)
Theorem short_view_statistics (view : DataFrame) :
  (length view < 2)%nat ->
  Series_mean (pct_change (column total_co2_emissions view)) = None /\
  Series_mean (pct_change (column pct_unable_to_afford_diet view)) = None /\
  corr (column total_co2_emissions view)
       (column pct_unable_to_afford_diet view) = None /\
  (view = [] -> analyze view = Raise TypeError) /\
  (forall r, view = [r] -> total_co2_emissions r <> 0 ->
     exists m, analyze view = Ok m /\
       delta_co2 m = None /\ delta_diet m = None /\ correlation m = None /\
       z m = (pct_unable_to_afford_diet r / (2 * total_co2_emissions r),
              pct_unable_to_afford_diet r / 2)).
Proof.
  intros Hn.
  split; [apply pct_change_mean_short; exact Hn|].
  split; [apply pct_change_mean_short; exact Hn|].
  split; [apply corr_short; exact Hn|].
  split.
  - intros ->. exact analyze_empty.
  - intros r -> Hx. eexists. split; [apply analyze_single; exact Hx|].
    repeat split.
Qed.

Lemma short_view_statistics_witness :
  (length [mkRow 2019 464.1 60.2] < 2)%nat /\
  corr (column total_co2_emissions [mkRow 2019 464.1 60.2])
       (column pct_unable_to_afford_diet [mkRow 2019 464.1 60.2]) = None.
Proof.
  assert (H : (length [mkRow 2019 464.1 60.2] < 2)%nat) by (simpl; lia).
  split; [exact H|].
  exact (proj1 (proj2 (proj2
    (short_view_statistics [mkRow 2019 464.1 60.2] H)))).
Defined.

(** The claim that the run on a short view never faults and leaves the
    trend line undefined fails on both short shapes: the empty view makes
    the run raise, and a one-row view gets a numeric trend line. *)
Lemma short_view_counterexample :
  (length (@nil row) < 2)%nat /\
  analyze [] = Raise TypeError /\
  (forall m, analyze [] <> Ok m) /\
  (length [mkRow 2019 464.1 60.2] < 2)%nat /\
  exists m, analyze [mkRow 2019 464.1 60.2] = Ok m /\
            z m = (60.2 / (2 * 464.1), 60.2 / 2).
Proof.
  split; [simpl; lia|]. split; [reflexivity|].
  split; [intros m; rewrite analyze_empty; discriminate|].
  split; [simpl; lia|].
  eexists. split; [apply analyze_single; simpl; lra | reflexivity].
Qed.

(** ** Loading *)


Lemma insert_by_perm (key : list cell -> R) (r : list cell)
    (l : list (list cell)) :
  Permutation (r :: l) (insert_by key r l).
Proof.
  induction l as [|r' l IH]; simpl.
  - apply Permutation_refl.
  - destruct (Rle_dec (key r) (key r')).
    + apply Permutation_refl.
    + eapply perm_trans; [apply perm_swap|]. apply perm_skip. exact IH.
Qed.

Lemma order_by_perm (key : list cell -> R) (l : list (list cell)) :
  Permutation l (order_by key l).
Proof.
  unfold order_by. induction l as [|r l IH]; simpl.
  - apply perm_nil.
  - eapply perm_trans; [apply perm_skip; exact IH|]. apply insert_by_perm.
Qed.

Lemma insert_by_sorted (key : list cell -> R) (r : list cell)
    (l : list (list cell)) :
  StronglySorted (fun a b => key a <= key b) l ->
  StronglySorted (fun a b => key a <= key b) (insert_by key r l).
Proof.
  induction 1 as [|r' l Hl IH Hr']; simpl.
  - constructor; constructor.
  - destruct (Rle_dec (key r) (key r')) as [Hle|Hgt].
    + constructor; [constructor; assumption|].
      constructor; [exact Hle|].
      eapply Forall_impl; [|exact Hr']. simpl. intros a Ha. lra.
    + constructor; [exact IH|].
      apply (Permutation_Forall (insert_by_perm key r l)).
      constructor; [lra | exact Hr'].
Qed.

Lemma order_by_sorted (key : list cell -> R) (l : list (list cell)) :
  StronglySorted (fun a b => key a <= key b) (order_by key l).
Proof.
  unfold order_by. induction l as [|r l IH]; simpl.
  - constructor.
  - apply insert_by_sorted. exact IH.
Qed.

Lemma all_some_map_sorted (i j k : nat) (rs : list (list cell))
    (df : DataFrame) :
  all_some (map (to_row i j k) rs) = Some df ->
  StronglySorted (fun a b => year_key i a <= year_key i b) rs ->
  ascending df.
Proof.
  assert (Hkey : forall r t, to_row i j k r = Some t ->
                             year_key i r = IZR (year t)).
  { intros r t. unfold to_row, year_key.
    destruct (nth_error r i) as [[y|x]|]; try discriminate.
    destruct (nth_error r j); try discriminate.
    destruct (nth_error r k); try discriminate.
    intros H. injection H as <-. reflexivity. }
  revert df. induction rs as [|r rs IH]; intros df Hdf Hs.
  - injection Hdf as <-. constructor.
  - simpl in Hdf. destruct (to_row i j k r) as [t|] eqn:Ht; [|discriminate].
    destruct (all_some (map (to_row i j k) rs)) as [df'|] eqn:Hrs;
      [|discriminate].
    injection Hdf as <-. inversion Hs as [|? ? Hs' Hall]; subst.
    constructor; [apply IH; [reflexivity | exact Hs']|].
    clear IH Hs Hs'. revert df' Hrs.
    induction Hall as [|r' rs Hr' _ IH']; intros df' Hrs.
    + injection Hrs as <-. constructor.
    + simpl in Hrs. destruct (to_row i j k r') as [t'|] eqn:Ht'; [|discriminate].
      destruct (all_some (map (to_row i j k) rs)) as [df''|]; [|discriminate].
      injection Hrs as <-. constructor; [|apply IH'; reflexivity].
      unfold year_le. rewrite (Hkey _ _ Ht), (Hkey _ _ Ht') in Hr'.
      apply le_IZR. exact Hr'.
Qed.

Lemma column_index_nocase_none (name : string) (cols : list string) :
  column_index_nocase name cols = None <->
  Forall (fun c => lower c <> lower name) cols.
Proof.
  induction cols as [|c cols IH]; simpl.
  - split; [constructor | reflexivity].
  - unfold sql_name_eqb. destruct (String.eqb (lower c) (lower name)) eqn:E.
    + apply String.eqb_eq in E. split; [discriminate|].
      intros H. inversion H; subst. contradiction.
    + apply String.eqb_neq in E. split.
      * intros H. constructor; [exact E|]. apply IH.
        destruct (column_index_nocase name cols); [discriminate|reflexivity].
      * intros H. inversion H; subst.
        rewrite (proj2 IH) by assumption. reflexivity.
Qed.

Lemma column_index_some_nocase (name : string) (cols : list string) (i : nat) :
  column_index name cols = Some i -> column_index_nocase name cols <> None.
Proof.
  revert i. induction cols as [|c cols IH]; intros i; simpl; [discriminate|].
  unfold sql_name_eqb. destruct (String.eqb c name) eqn:E.
  - apply String.eqb_eq in E. subst c. rewrite String.eqb_refl. discriminate.
  - destruct (String.eqb (lower c) (lower name)); [discriminate|].
    destruct (column_index name cols) as [j|]; [|discriminate].
    intros _. specialize (IH j eq_refl).
    destruct (column_index_nocase name cols); [discriminate | congruence].
Qed.

(** A name refers to no column exactly when no column has that name in any
    case of the letters. *)
Lemma sql_column_index_none (name : string) (cols : list string) :
  sql_column_index name cols = None <->
  Forall (fun c => lower c <> lower name) cols.
Proof.
  rewrite <- column_index_nocase_none. unfold sql_column_index.
  destruct (column_index name cols) as [i|] eqn:E; [|reflexivity].
  pose proof (column_index_some_nocase name cols i E) as H.
  split; [discriminate | intros H'; contradiction].
Qed.

Lemma sql_column_index_exact (name : string) (cols : list string) (i : nat) :
  column_index name cols = Some i -> sql_column_index name cols = Some i.
Proof. unfold sql_column_index. intros ->. reflexivity. Qed.

(** On the columns of a table, no two of which are equal up to case, the
    column a name refers to is the one that matches it up to case. *)
Lemma sql_column_index_distinct (name : string) (cols : list string) :
  NoDup (map lower cols) ->
  sql_column_index name cols = column_index_nocase name cols.
Proof.
  unfold sql_column_index. induction cols as [|c cols IH]; intros Hnd;
    [reflexivity|].
  inversion Hnd as [|? ? Hc Hnd']; subst. specialize (IH Hnd'). simpl.
  unfold sql_name_eqb. destruct (String.eqb c name) eqn:E.
  - apply String.eqb_eq in E. subst c. rewrite String.eqb_refl. reflexivity.
  - destruct (String.eqb (lower c) (lower name)) eqn:El.
    + apply String.eqb_eq in El.
      destruct (column_index name cols) as [j|] eqn:Ej; [|reflexivity].
      exfalso. apply Hc. rewrite El. clear - Ej.
      revert j Ej. induction cols as [|c' cols IH]; intros j; simpl;
        [discriminate|].
      destruct (String.eqb c' name) eqn:E'.
      * apply String.eqb_eq in E'. subst c'. left. reflexivity.
      * destruct (column_index name cols) as [j'|]; [|discriminate].
        intros _. right. apply (IH j'). reflexivity.
    + destruct (column_index name cols) as [j|]; simpl.
      * destruct IH. reflexivity.
      * reflexivity.
Qed.

(** What [load_data] returns reads as a frame in ascending year order. *)
Lemma load_data_ascending (src : source) (F : Frame) (df : DataFrame) :
  load_data src = Ok F -> to_rows F = Some df -> ascending df.
Proof.
  destruct src as [| |[t|]]; try discriminate.
  unfold load_data; simpl.
  destruct (sql_column_index "year" (columns t)) as [i|] eqn:Hi;
    [|discriminate].
  simpl. intros H. injection H as <-. unfold to_rows. simpl.
  destruct (column_index "year" (columns t)) as [i'|] eqn:Hi'; [|discriminate].
  rewrite (sql_column_index_exact _ _ _ Hi') in Hi. injection Hi as ->.
  destruct (column_index "total_co2_emissions" (columns t)) as [j|];
    [|discriminate].
  destruct (column_index "pct_unable_to_afford_diet" (columns t)) as [k|];
    [|discriminate].
  intros H. eapply all_some_map_sorted; [exact H|]. apply order_by_sorted.
Qed.

(** C8, as the script has it.  When [load_data] returns, the frame holds
    the columns of the table and a permutation of its rows, sorted
    ascending by year.  It raises exactly when the database file cannot be
    opened, or is not a database, or the table does not exist, or no column
    of the table is named [year] in any case of the letters: an empty
    table, and a table without the CO2 or the diet column, load without an
    error. *)
Theorem load_data_behaviour (src : source) :
  (forall F, load_data src = Ok F ->
     sorted_by_year F /\
     exists t, src = Database (Some t) /\
               frame_columns F = columns t /\
               Permutation (rows t) (frame_rows F)) /\
  (raises (load_data src) = true <->
     src = Unopenable \/ src = NotADatabase \/ src = Database None \/
     exists t, src = Database (Some t) /\
               Forall (fun c => lower c <> "year"%string) (columns t)).
Proof.
  destruct src as [| |[t|]]; unfold load_data; simpl.
  - split; [discriminate|]. split; auto.
  - split; [discriminate|]. split; auto.
  - pose proof (sql_column_index_none "year" (columns t)) as Hnone.
    change (lower "year") with "year"%string in Hnone.
    destruct (sql_column_index "year" (columns t)) as [i|] eqn:Hi; simpl.
    + split.
      * intros F H. injection H as <-. split.
        -- exists i. simpl. split; [exact Hi | apply order_by_sorted].
        -- exists t. simpl. split; [reflexivity|].
           split; [reflexivity | apply order_by_perm].
      * split; [discriminate|].
        intros [H|[H|[H|(t' & H & Hn)]]]; try discriminate.
        injection H as <-. apply Hnone in Hn. discriminate.
    + split; [discriminate|]. split; [|reflexivity].
      intros _. right. right. right. exists t. split; [reflexivity|].
      apply Hnone. reflexivity.
  - split; [discriminate|]. split; auto.
Qed.

(** A table whose year column is spelled [Year] loads, sorted by it; read
    with the script's own label [year] it then has no such column. *)
Lemma capital_year_loads :
  load_data capital_year_source
  = Ok (mkFrame
          ["Year"; "total_co2_emissions"; "pct_unable_to_afford_diet"]%string
          [ [CInt 2017; CReal 440.0; CReal 60.8];
            [CInt 2018; CReal 434.6; CReal 60.2] ]) /\
  column_index "year"
    ["Year"; "total_co2_emissions"; "pct_unable_to_afford_diet"]%string
  = None.
Proof.
  split; [|reflexivity].
  unfold load_data, capital_year_source. simpl. f_equal. f_equal.
  unfold order_by. simpl.
  destruct (Rle_dec _ _) as [H|H]; [|reflexivity].
  exfalso. unfold year_key in H. simpl in H. lra.
Qed.

(** The claim that loading fails on an empty source and on a source that
    lacks a required column does not hold: the table with no row loads as
    the frame with no row, and the table without the CO2 column loads as
    it is. *)
Lemma load_data_counterexample :
  empty_source = Database (Some (mkTable three_columns [])) /\
  load_data empty_source = Ok (mkFrame three_columns []) /\
  raises (load_data empty_source) = false /\
  (exists t, no_co2_source = Database (Some t) /\
             column_index "total_co2_emissions" (columns t) = None) /\
  raises (load_data no_co2_source) = false.
Proof.
  split; [reflexivity|]. split; [reflexivity|]. split; [reflexivity|].
  split; [eexists; split; reflexivity | reflexivity].
Qed.

(** * Further properties of the script *)

(** ** The slider and the filter (lines 43-51) *)

Lemma fold_min_in (ys : list Z) (y : Z) : In (fold_left Z.min ys y) (y :: ys).
Proof.
  revert y. induction ys as [|a ys IH]; intros y; simpl.
  - left. reflexivity.
  - destruct (IH (Z.min y a)) as [H|H].
    + rewrite <- H. destruct (Z.min_spec y a) as [[_ E]|[_ E]]; rewrite E; auto.
    + right. right. exact H.
Qed.

Lemma fold_max_in (ys : list Z) (y : Z) : In (fold_left Z.max ys y) (y :: ys).
Proof.
  revert y. induction ys as [|a ys IH]; intros y; simpl.
  - left. reflexivity.
  - destruct (IH (Z.max y a)) as [H|H].
    + rewrite <- H. destruct (Z.max_spec y a) as [[_ E]|[_ E]]; rewrite E; auto.
    + right. right. exact H.
Qed.

Lemma slider_bounds_inv (df : DataFrame) (lo hi : Z) :
  slider_bounds df = Ok (lo, hi) ->
  year_min df = Some lo /\ year_max df = Some hi.
Proof.
  unfold slider_bounds.
  destruct (year_min df) as [a|]; [|discriminate].
  destruct (year_max df) as [b|]; [|discriminate].
  simpl. intros H. injection H as <- <-. auto.
Qed.

(** X1. The slider gets usable bounds from every frame with a row, and
    only from those: on the empty frame [int(nan)] raises [ValueError];
    otherwise [min_value <= max_value], both are years of rows of the
    frame, and the year of every row lies between them. *)
Theorem slider_bounds_valid (df : DataFrame) :
  (df = [] <-> slider_bounds df = Raise ValueError) /\
  (df <> [] <-> exists lo hi, slider_bounds df = Ok (lo, hi)) /\
  (forall lo hi, slider_bounds df = Ok (lo, hi) ->
     (lo <= hi)%Z /\
     (exists r, In r df /\ year r = lo) /\
     (exists r, In r df /\ year r = hi) /\
     (forall r, In r df -> (lo <= year r <= hi)%Z)).
Proof.
  split; [|split].
  - split; [intros ->; reflexivity|].
    destruct df as [|r df]; [reflexivity|discriminate].
  - split.
    + intros Hne. destruct (slider_bounds_nonempty df Hne) as (lo & hi & H & _).
      eauto.
    + intros (lo & hi & H) ->. discriminate.
  - intros lo hi H. destruct (slider_bounds_inv df lo hi H) as [Hlo Hhi].
    assert (Hin : forall r, In r df -> (lo <= year r <= hi)%Z).
    { intros r Hr. split;
        [eapply year_min_lower | eapply year_max_upper]; eauto. }
    assert (Elo : exists r, In r df /\ year r = lo).
    { unfold year_min in Hlo. destruct (map year df) as [|y ys] eqn:E;
        [discriminate|]. injection Hlo as <-.
      pose proof (fold_min_in ys y) as Hi. rewrite <- E in Hi.
      apply in_map_iff in Hi. destruct Hi as (r & Hy & Hr). eauto. }
    assert (Ehi : exists r, In r df /\ year r = hi).
    { unfold year_max in Hhi. destruct (map year df) as [|y ys] eqn:E;
        [discriminate|]. injection Hhi as <-.
      pose proof (fold_max_in ys y) as Hi. rewrite <- E in Hi.
      apply in_map_iff in Hi. destruct Hi as (r & Hy & Hr). eauto. }
    split; [|auto].
    destruct Elo as (r & Hr & <-). apply Hin in Hr. lia.
Qed.

Lemma filter_filter {A : Type} (p q : A -> bool) (l : list A) :
  filter q (filter p l) = filter (fun x => p x && q x) l.
Proof.
  induction l as [|x l IH]; simpl; [reflexivity|].
  destruct (p x); simpl; [destruct (q x)|]; rewrite IH; reflexivity.
Qed.

Lemma year_mask_meet (a b c d : Z) (r : row) :
  year_mask (a, b) r && year_mask (c, d) r
  = year_mask (Z.max a c, Z.min b d) r.
Proof.
  apply eq_true_iff_eq. rewrite andb_true_iff, !year_mask_spec. lia.
Qed.

(** X2. Filtering a view again is filtering the frame once with the
    intersection of the two ranges; so the order of two filters does not
    matter and filtering twice with one range changes nothing. *)
Theorem filtered_df_twice (df : DataFrame) (a b c d : Z) :
  filtered_df (filtered_df df (a, b)) (c, d)
    = filtered_df df (Z.max a c, Z.min b d) /\
  filtered_df (filtered_df df (a, b)) (c, d)
    = filtered_df (filtered_df df (c, d)) (a, b) /\
  filtered_df (filtered_df df (a, b)) (a, b) = filtered_df df (a, b).
Proof.
  assert (H : forall a b c d,
             filtered_df (filtered_df df (a, b)) (c, d)
             = filtered_df df (Z.max a c, Z.min b d)).
  { intros a' b' c' d'. unfold filtered_df. rewrite filter_filter.
    apply filter_ext. intros r. apply year_mask_meet. }
  split; [apply H|]. split.
  - rewrite !H. rewrite (Z.max_comm a c), (Z.min_comm b d). reflexivity.
  - rewrite H, Z.max_id, Z.min_id. reflexivity.
Qed.

Lemma filter_length_eq {A : Type} (p : A -> bool) (l : list A) :
  length (filter p l) = length l -> filter p l = l.
Proof.
  induction l as [|x l IH]; simpl; [reflexivity|].
  pose proof (filter_length_le p l) as Hle.
  destruct (p x); simpl; intros H.
  - f_equal. apply IH. lia.
  - lia.
Qed.

(** X3. The number of data points never exceeds the number of rows of the
    frame, and the view is the whole frame exactly when it has as many
    rows, which is exactly when the range contains the year of every
    row. *)
Theorem filtered_df_whole (df : DataFrame) (a b : Z) :
  (length (filtered_df df (a, b)) <= length df)%nat /\
  (length (filtered_df df (a, b)) = length df <-> filtered_df df (a, b) = df) /\
  (filtered_df df (a, b) = df <->
   forall r, In r df -> (a <= year r <= b)%Z).
Proof.
  unfold filtered_df. split; [apply filter_length_le|]. split.
  - split; [apply filter_length_eq | intros ->; reflexivity].
  - split.
    + intros H r Hr. rewrite <- H in Hr. apply filter_In in Hr.
      apply year_mask_spec. tauto.
    + intros H. apply filter_all. intros r Hr. apply year_mask_spec. auto.
Qed.

(** ** Means (lines 66 and 73) *)

Lemma Rsum_bounds (l u : R) (xs : list R) :
  Forall (fun x => l <= x <= u) xs ->
  INR (length xs) * l <= Rsum xs <= INR (length xs) * u.
Proof.
  induction 1 as [|x xs Hx _ IH].
  - simpl. lra.
  - change (length (x :: xs)) with (S (length xs)).
    rewrite S_INR, Rsum_cons. lra.
Qed.

Lemma Rmean_bounds (l u : R) (xs : list R) :
  xs <> [] -> Forall (fun x => l <= x <= u) xs -> l <= Rmean xs <= u.
Proof.
  intros Hne Hall. pose proof (INR_length_pos xs Hne) as Hn.
  pose proof (Rsum_bounds l u xs Hall) as [H1 H2]. unfold Rmean. split.
  - apply (Rmult_le_reg_r (INR (length xs))); [exact Hn|].
    replace (Rsum xs / INR (length xs) * INR (length xs)) with (Rsum xs)
      by (field; lra). lra.
  - apply (Rmult_le_reg_r (INR (length xs))); [exact Hn|].
    replace (Rsum xs / INR (length xs) * INR (length xs)) with (Rsum xs)
      by (field; lra). lra.
Qed.

(** X4. The mean of a column is NaN exactly on the empty view; on any
    other view it is a number that lies between any two bounds of the
    column's values (so a mean of percentages is a percentage, and a mean
    of non-negative emissions is non-negative). *)
Theorem Series_mean_column (f : row -> R) (view : DataFrame) :
  (Series_mean (column f view) = None <-> view = []) /\
  (forall l u, view <> [] ->
     (forall r, In r view -> l <= f r <= u) ->
     exists m, Series_mean (column f view) = Some m /\ l <= m <= u).
Proof.
  unfold Series_mean. rewrite dropna_column. split.
  - destruct view as [|r view]; simpl; split; intros H;
      try reflexivity; discriminate.
  - intros l u Hne Hall.
    assert (Hm : map f view <> []) by (destruct view; [congruence|discriminate]).
    destruct (map f view) as [|x xs] eqn:E; [congruence|].
    eexists. split; [reflexivity|]. apply Rmean_bounds; [discriminate|].
    rewrite <- E. apply Forall_forall. intros x' Hx'.
    apply in_map_iff in Hx'. destruct Hx' as (r & <- & Hr). auto.
Qed.

Lemma Series_mean_column_witness :
  exists m,
    Series_mean (column pct_unable_to_afford_diet example_df) = Some m /\
    0 <= m <= 100.
Proof.
  assert (Hne : example_df <> []) by discriminate.
  assert (Hb : forall r, In r example_df ->
                         0 <= pct_unable_to_afford_diet r <= 100).
  { apply Forall_forall. unfold example_df. repeat constructor; simpl; lra. }
  exact (proj2 (Series_mean_column pct_unable_to_afford_diet example_df)
           0 100 Hne Hb).
Defined.

(** ** Percentage change (lines 67 and 74) *)

Lemma pct_change_mean_quotients (x0 : R) (rest : list R) :
  Series_mean (pct_change (map Some (x0 :: rest))) =
  match map (fun q => q - 1) (quotients x0 rest) with
  | [] => None
  | qs => Some (Rmean qs)
  end.
Proof.
  rewrite pct_change_values. unfold Series_mean.
  change (dropna (None :: map Some (map (fun q => q - 1) (quotients x0 rest))))
    with (dropna (map Some (map (fun q => q - 1) (quotients x0 rest)))).
  rewrite dropna_map_Some. reflexivity.
Qed.

Lemma quotients_scale (k x0 : R) (rest : list R) :
  k <> 0 -> Forall (fun v => v <> 0) (x0 :: rest) ->
  quotients (k * x0) (map (Rmult k) rest) = quotients x0 rest.
Proof.
  intros Hk. revert x0. induction rest as [|x rest IH]; intros x0 Hnz.
  - reflexivity.
  - inversion Hnz as [|? ? Hx0 Hrest]; subst. simpl. f_equal.
    + field. split; assumption.
    + apply IH. exact Hrest.
Qed.

(** X5. The percentage-change mean does not depend on the unit of the
    column: multiplying every value by the same non-zero factor leaves it
    unchanged, as long as no value of the column is zero. *)
Theorem pct_change_mean_scale (f : row -> R) (k : R) (view : DataFrame) :
  k <> 0 -> (forall r, In r view -> f r <> 0) ->
  Series_mean (pct_change (column (fun r => k * f r) view))
  = Series_mean (pct_change (column f view)).
Proof.
  intros Hk Hnz. rewrite !column_map.
  assert (Hall : Forall (fun v => v <> 0) (map f view)).
  { rewrite Forall_map. apply Forall_forall. exact Hnz. }
  replace (map (fun r => k * f r) view) with (map (Rmult k) (map f view))
    by (rewrite map_map; reflexivity).
  destruct (map f view) as [|x0 rest]; [reflexivity|].
  change (map (Rmult k) (x0 :: rest)) with (k * x0 :: map (Rmult k) rest).
  rewrite !pct_change_mean_quotients, (quotients_scale k x0 rest Hk Hall).
  reflexivity.
Qed.

Lemma pct_change_mean_scale_witness :
  (1000 <> 0) /\
  Series_mean (pct_change (column (fun r => 1000 * total_co2_emissions r)
                                  example_df))
  = Series_mean (pct_change (column total_co2_emissions example_df)).
Proof.
  assert (Hk : 1000 <> 0) by lra.
  assert (Hnz : forall r, In r example_df -> total_co2_emissions r <> 0).
  { apply Forall_forall. unfold example_df. repeat constructor; simpl; lra. }
  split; [exact Hk|].
  exact (pct_change_mean_scale total_co2_emissions 1000 example_df Hk Hnz).
Defined.

Lemma quotients_geometric (g x0 : R) (rest : list R) :
  Forall (fun v => v <> 0) (x0 :: rest) ->
  (forall i, (S i < length (x0 :: rest))%nat ->
             nth (S i) (x0 :: rest) 0 = g * nth i (x0 :: rest) 0) ->
  Forall (fun q => q = g) (quotients x0 rest).
Proof.
  revert x0. induction rest as [|x rest IH]; intros x0 Hnz Hg.
  - constructor.
  - inversion Hnz as [|? ? Hx0 Hrest]; subst. simpl. constructor.
    + specialize (Hg 0%nat). simpl in Hg. rewrite Hg by lia. field. exact Hx0.
    + apply IH; [exact Hrest|]. intros i Hi.
      apply (Hg (S i)). simpl in *. lia.
Qed.

(** X6. When every value of a column is [g] times the one before it (and
    none is zero), the percentage-change mean over a view of two rows or
    more is [g - 1]: a steady growth of 3 % a year is shown as 3 %, and a
    constant column as 0 %. *)
Theorem pct_change_mean_geometric (f : row -> R) (g : R) (view : DataFrame) :
  (2 <= length view)%nat ->
  (forall r, In r view -> f r <> 0) ->
  (forall i, (S i < length view)%nat ->
     nth (S i) (map f view) 0 = g * nth i (map f view) 0) ->
  Series_mean (pct_change (column f view)) = Some (g - 1) /\
  fmul (Series_mean (pct_change (column f view))) 100 = Some ((g - 1) * 100).
Proof.
  intros Hn Hnz Hg. rewrite column_map.
  assert (Hall : Forall (fun v => v <> 0) (map f view)).
  { rewrite Forall_map. apply Forall_forall. exact Hnz. }
  rewrite <- (length_map f) in Hn, Hg.
  destruct (map f view) as [|x0 [|x1 rest]]; [simpl in Hn; lia..|].
  pose proof (quotients_geometric g x0 (x1 :: rest) Hall Hg) as Hq.
  assert (Hq' : Forall (fun q => q = g - 1)
                  (map (fun q => q - 1) (quotients x0 (x1 :: rest)))).
  { rewrite Forall_map. eapply Forall_impl; [|exact Hq].
    simpl. intros q ->. reflexivity. }
  assert (E : Series_mean (pct_change (map Some (x0 :: x1 :: rest)))
              = Some (g - 1)).
  { rewrite pct_change_mean_quotients.
    destruct (map (fun q => q - 1) (quotients x0 (x1 :: rest)))
      as [|q qs] eqn:E; [discriminate|].
    f_equal. unfold Rmean. rewrite (Rsum_constant (g - 1) _ Hq').
    field. apply Rgt_not_eq. apply (INR_length_pos (q :: qs)). discriminate. }
  rewrite E. split; reflexivity.
Qed.

(** ** Correlation (lines 78-83) *)

Lemma Rmean_affine (a b : R) (x : list R) :
  x <> [] -> Rmean (map (fun v => a * v + b) x) = a * Rmean x + b.
Proof.
  intros Hne. pose proof (INR_length_pos x Hne) as Hn.
  unfold Rmean. rewrite Rsum_affine, length_map. field. lra.
Qed.

Lemma dev_affine (a b : R) (x : list R) :
  dev (map (fun v => a * v + b) x) = map (Rmult a) (dev x).
Proof.
  destruct x as [|c x]; [reflexivity|].
  unfold dev. rewrite Rmean_affine by discriminate.
  rewrite !map_map. apply map_ext. intros v. ring.
Qed.

Lemma dot_scale_l (a : R) (u v : list R) :
  dot (map (Rmult a) u) v = a * dot u v.
Proof.
  revert v. induction u as [|c u IH]; intros [|d v];
    try (unfold dot; simpl; ring).
  simpl map. rewrite !dot_cons, IH. ring.
Qed.

Lemma np_cov_affine (a b c d : R) (x y : list R) :
  np_cov (map (fun v => a * v + b) x) (map (fun v => c * v + d) y)
  = a * c * np_cov x y.
Proof.
  unfold np_cov. rewrite !dev_affine, dot_scale_l.
  rewrite (dot_comm (dev x)), dot_scale_l, (dot_comm (dev y)), length_map.
  unfold Rdiv. ring.
Qed.

Lemma sqrt_scaled (a v : R) : 0 <= v -> sqrt (a * a * v) = Rabs a * sqrt v.
Proof.
  intros Hv. rewrite sqrt_mult; [|nra|exact Hv].
  f_equal. rewrite <- (sqrt_Rsqr_abs a). reflexivity.
Qed.

Lemma pearson_affine (a b c d : R) (x y : list R) :
  a <> 0 -> c <> 0 -> (2 <= length x)%nat -> length x = length y ->
  np_cov x x <> 0 -> np_cov y y <> 0 ->
  pearson (map (fun v => a * v + b) x) (map (fun v => c * v + d) y)
  = (a / Rabs a) * (c / Rabs c) * pearson x y.
Proof.
  intros Ha Hc Hn Hlen Hx Hy.
  pose proof (np_cov_self_nonneg x Hn) as Px.
  assert (Hn' : (2 <= length y)%nat) by lia.
  pose proof (np_cov_self_nonneg y Hn') as Py.
  unfold pearson. rewrite !np_cov_affine.
  rewrite (sqrt_scaled a _ Px), (sqrt_scaled c _ Py).
  assert (Sx : 0 < sqrt (np_cov x x)) by (apply sqrt_lt_R0; lra).
  assert (Sy : 0 < sqrt (np_cov y y)) by (apply sqrt_lt_R0; lra).
  pose proof (Rabs_pos_lt a Ha). pose proof (Rabs_pos_lt c Hc).
  field. repeat split; lra.
Qed.

Lemma corrcoef_affine (a b c d : R) (x y : list R) :
  a <> 0 -> c <> 0 -> length x = length y ->
  corrcoef (map (fun v => a * v + b) x) (map (fun v => c * v + d) y)
  = option_map (Rmult ((a / Rabs a) * (c / Rabs c))) (corrcoef x y).
Proof.
  intros Ha Hc Hlen.
  pose proof (Rabs_pos_lt a Ha) as Aa. pose proof (Rabs_pos_lt c Hc) as Ac.
  assert (Sa : a / Rabs a = 1 \/ a / Rabs a = -1).
  { unfold Rabs in *. destruct (Rcase_abs a); [right|left]; field; lra. }
  assert (Sc : c / Rabs c = 1 \/ c / Rabs c = -1).
  { unfold Rabs in *. destruct (Rcase_abs c); [right|left]; field; lra. }
  unfold corrcoef. rewrite !length_map.
  destruct (length x <=? 1)%nat eqn:L; [reflexivity|].
  apply Nat.leb_gt in L. assert (Hn : (2 <= length x)%nat) by lia.
  rewrite !np_cov_affine.
  destruct (Req_dec_T (np_cov x x) 0) as [Zx|Nx].
  { destruct (Req_dec_T (a * a * np_cov x x) 0) as [_|N]; [reflexivity|].
    elim N. rewrite Zx. ring. }
  destruct (Req_dec_T (a * a * np_cov x x) 0) as [Z|_].
  { destruct (Rmult_integral _ _ Z) as [Z'|Z']; [|contradiction].
    destruct (Rmult_integral _ _ Z'); contradiction. }
  destruct (Req_dec_T (np_cov y y) 0) as [Zy|Ny].
  { destruct (Req_dec_T (c * c * np_cov y y) 0) as [_|N]; [reflexivity|].
    elim N. rewrite Zy. ring. }
  destruct (Req_dec_T (c * c * np_cov y y) 0) as [Z|_].
  { destruct (Rmult_integral _ _ Z) as [Z'|Z']; [|contradiction].
    destruct (Rmult_integral _ _ Z'); contradiction. }
  simpl. f_equal.
  rewrite (pearson_affine a b c d x y Ha Hc Hn Hlen Nx Ny).
  pose proof (pearson_range x y Hlen Hn Nx Ny) as Hr.
  rewrite (clip_id _ _ (pearson x y) Hr).
  apply clip_id. destruct Sa as [-> | ->], Sc as [-> | ->]; lra.
Qed.

Lemma well_conditioned_spread (x : list R) :
  well_conditioned x ->
  x <> [] /\ (2 <= length x)%nat /\ ~ constant x /\
  0 < INR (length x) * dot x x - Rsum x * Rsum x.
Proof.
  intros (_ & _ & Hd & Hs).
  assert (Hne : x <> []).
  { intros ->. unfold dot in Hd. simpl in Hd. lra. }
  pose proof (INR_length_pos x Hne) as Hn.
  assert (Hnd : 0 < INR (length x) * dot x x)
    by (apply Rmult_lt_0_compat; lra).
  assert (Hdet : 0 < INR (length x) * dot x x - Rsum x * Rsum x) by lra.
  assert (Hnc : ~ constant x).
  { intros Hc. destruct (le_lt_dec 2 (length x)) as [L|L].
    - rewrite (det_variance x L) in Hdet.
      rewrite (proj2 (variance_zero_iff x L) Hc) in Hdet. lra.
    - destruct x as [|c [|c' x]]; [congruence | | simpl in L; lia].
      unfold dot, Rsum in Hdet. simpl in Hdet. nra. }
  split; [exact Hne|]. split; [exact (not_constant_two x Hnc)|].
  split; [exact Hnc | exact Hdet].
Qed.

Ltac concrete_well_conditioned :=
  unfold well_conditioned, double_range, dot, Rsum; simpl;
  split; [repeat (apply Forall_cons; [apply Rabs_le; lra|]); apply Forall_nil|];
  split; [lra|]; split; lra.

(** X7. On a view whose two columns are well conditioned, before and after
    the change, the correlation is a number that does not depend on the
    units of the columns: rescaling and shifting either column by an
    increasing linear map ([a x + b] with [a > 0]) leaves it unchanged, and
    a decreasing map of one column only changes its sign. *)
Theorem corr_affine (a b c d : R) (view : DataFrame) :
  well_conditioned (map total_co2_emissions view) ->
  well_conditioned (map pct_unable_to_afford_diet view) ->
  well_conditioned (map (fun r => a * total_co2_emissions r + b) view) ->
  well_conditioned (map (fun r => c * pct_unable_to_afford_diet r + d) view) ->
  exists r,
    corr (column total_co2_emissions view)
         (column pct_unable_to_afford_diet view) = Some r /\
    (0 < a -> 0 < c ->
     corr (column (fun r => a * total_co2_emissions r + b) view)
          (column (fun r => c * pct_unable_to_afford_diet r + d) view)
     = Some r) /\
    (a < 0 -> 0 < c ->
     corr (column (fun r => a * total_co2_emissions r + b) view)
          (column (fun r => c * pct_unable_to_afford_diet r + d) view)
     = Some (- r)).
Proof.
  intros Wx Wy _ _.
  destruct (well_conditioned_spread _ Wx) as (_ & Hn & Hncx & _).
  destruct (well_conditioned_spread _ Wy) as (_ & _ & Hncy & _).
  assert (Hlen : length (map total_co2_emissions view)
                 = length (map pct_unable_to_afford_diet view))
    by now rewrite !length_map.
  assert (Hr : corr (column total_co2_emissions view)
                    (column pct_unable_to_afford_diet view)
               = Some (pearson (map total_co2_emissions view)
                               (map pct_unable_to_afford_diet view))).
  { rewrite corr_columns. apply corrcoef_defined; [exact Hlen|]. tauto. }
  assert (H : a <> 0 -> c <> 0 ->
    corr (column (fun r => a * total_co2_emissions r + b) view)
         (column (fun r => c * pct_unable_to_afford_diet r + d) view)
    = option_map (Rmult ((a / Rabs a) * (c / Rabs c)))
        (corr (column total_co2_emissions view)
              (column pct_unable_to_afford_diet view))).
  { intros Ha Hc. rewrite !corr_columns.
    rewrite <- (corrcoef_affine a b c d) by (assumption || now rewrite !length_map).
    rewrite !map_map. reflexivity. }
  eexists. split; [exact Hr|].
  split; intros Ha Hc; rewrite H by lra; clear H; rewrite Hr; simpl.
  - rewrite (Rabs_right a), (Rabs_right c) by lra.
    f_equal. field. lra.
  - rewrite (Rabs_left a), (Rabs_right c) by lra.
    f_equal. field. lra.
Qed.

Lemma synthetic_well_conditioned :
  well_conditioned (map total_co2_emissions synthetic_df) /\
  well_conditioned (map pct_unable_to_afford_diet synthetic_df).
Proof. split; concrete_well_conditioned. Qed.

Lemma corr_affine_witness :
  well_conditioned (map total_co2_emissions synthetic_df) /\
  well_conditioned (map pct_unable_to_afford_diet synthetic_df) /\
  corr (column (fun r => 1000 * total_co2_emissions r + 0) synthetic_df)
       (column (fun r => 0.01 * pct_unable_to_afford_diet r + 0) synthetic_df)
  = corr (column total_co2_emissions synthetic_df)
         (column pct_unable_to_afford_diet synthetic_df).
Proof.
  assert (Wx : well_conditioned (map total_co2_emissions synthetic_df))
    by concrete_well_conditioned.
  assert (Wy : well_conditioned (map pct_unable_to_afford_diet synthetic_df))
    by concrete_well_conditioned.
  assert (Wx' : well_conditioned
                  (map (fun r => 1000 * total_co2_emissions r + 0) synthetic_df))
    by concrete_well_conditioned.
  assert (Wy' : well_conditioned
                  (map (fun r => 0.01 * pct_unable_to_afford_diet r + 0)
                       synthetic_df))
    by concrete_well_conditioned.
  assert (Ha : 0 < 1000) by lra.
  assert (Hc : 0 < 0.01) by lra.
  split; [exact Wx|]. split; [exact Wy|].
  destruct (corr_affine 1000 0 0.01 0 synthetic_df Wx Wy Wx' Wy')
    as (r & Hr & Hup & _).
  rewrite Hr. exact (Hup Ha Hc).
Defined.

(** ** The trend line (lines 132-136) *)

Lemma analyze_inv (view : DataFrame) (m : Metrics) :
  analyze view = Ok m ->
  polyfit_arrays (map total_co2_emissions view)
                 (map pct_unable_to_afford_diet view) = Ok (z m) /\
  correlation m = corrcoef (map total_co2_emissions view)
                           (map pct_unable_to_afford_diet view) /\
  correlation_delta m = corr_label (correlation m) /\
  data_points m = length view.
Proof.
  unfold analyze. rewrite polyfit_columns, corr_columns.
  destruct (polyfit_arrays _ _) as [line|e]; simpl; [|discriminate].
  intros H. injection H as <-. simpl. auto.
Qed.

Lemma Rsum_residuals (a b : R) (view : DataFrame) :
  Rsum (map (fun r => pct_unable_to_afford_diet r
                      - poly1d (a, b) (total_co2_emissions r)) view)
  = Rsum (map pct_unable_to_afford_diet view)
    - a * Rsum (map total_co2_emissions view) - INR (length view) * b.
Proof.
  induction view as [|r view IH].
  - simpl. ring.
  - change (length (r :: view)) with (S (length view)).
    simpl map. rewrite !Rsum_cons, IH, S_INR. unfold poly1d. simpl. ring.
Qed.

(** X8. Whenever the run completes, the plotted trend line passes through
    the point of the two column means, and the residuals of the view's
    points about it sum to zero. *)
Theorem trend_line_centroid (view : DataFrame) (m : Metrics) :
  analyze view = Ok m ->
  poly1d (z m) (Rmean (map total_co2_emissions view))
    = Rmean (map pct_unable_to_afford_diet view) /\
  Rsum (map (fun r => pct_unable_to_afford_diet r
                      - poly1d (z m) (total_co2_emissions r)) view) = 0.
Proof.
  intros H. destruct (analyze_inv view m H) as (Hfit & _).
  destruct (z m) as [a b].
  destruct (polyfit_arrays_inv _ _ _ Hfit) as [Hne Hlen].
  destruct (polyfit_normal_equations _ _ a b Hfit) as [_ N2].
  pose proof (INR_length_pos _ Hne) as Hn.
  split.
  - unfold poly1d, Rmean. simpl. rewrite <- Hlen, <- N2. field. lra.
  - rewrite Rsum_residuals, <- N2, length_map. ring.
Qed.

Lemma synthetic_run : analyze synthetic_df = Ok synthetic_metrics.
Proof.
  apply analyze_ok. rewrite polyfit_columns.
  destruct synthetic_columns as [-> ->].
  apply polyfit_recovers_line. exact one_to_five_not_constant.
Qed.

Lemma trend_line_centroid_witness :
  analyze synthetic_df = Ok synthetic_metrics /\
  poly1d (z synthetic_metrics) (Rmean (map total_co2_emissions synthetic_df))
    = Rmean (map pct_unable_to_afford_diet synthetic_df).
Proof.
  split; [exact synthetic_run|].
  exact (proj1 (trend_line_centroid synthetic_df synthetic_metrics
                  synthetic_run)).
Defined.

(** X9. Whenever the run completes on a view whose CO2 column is well
    conditioned and whose diet values are in range, no line has a smaller
    sum of squared residuals over the view's points than the plotted trend
    line. *)
Theorem trend_line_least_squares (view : DataFrame) (m : Metrics) :
  well_conditioned (map total_co2_emissions view) ->
  Forall double_range (map pct_unable_to_afford_diet view) ->
  analyze view = Ok m ->
  forall a b,
    sse (map total_co2_emissions view) (map pct_unable_to_afford_diet view)
        (fst (z m)) (snd (z m))
    <= sse (map total_co2_emissions view) (map pct_unable_to_afford_diet view)
           a b.
Proof.
  intros _ _ H a b. destruct (analyze_inv view m H) as (Hfit & _).
  destruct (z m) as [a0 b0]. simpl.
  apply (polyfit_least_squares _ _ a0 b0 Hfit).
Qed.

Lemma trend_line_least_squares_witness :
  well_conditioned (map total_co2_emissions synthetic_df) /\
  analyze synthetic_df = Ok synthetic_metrics /\
  sse (map total_co2_emissions synthetic_df)
      (map pct_unable_to_afford_diet synthetic_df)
      (fst (z synthetic_metrics)) (snd (z synthetic_metrics))
  <= sse (map total_co2_emissions synthetic_df)
         (map pct_unable_to_afford_diet synthetic_df) 0 9.
Proof.
  assert (Wx : well_conditioned (map total_co2_emissions synthetic_df))
    by concrete_well_conditioned.
  assert (Ry : Forall double_range
                 (map pct_unable_to_afford_diet synthetic_df)).
  { unfold double_range. simpl.
    repeat (apply Forall_cons; [apply Rabs_le; lra|]). apply Forall_nil. }
  split; [exact Wx|]. split; [exact synthetic_run|].
  exact (trend_line_least_squares synthetic_df synthetic_metrics
           Wx Ry synthetic_run 0 9).
Defined.

Lemma np_cov_constant_r (x y : list R) :
  length x = length y -> (2 <= length x)%nat -> constant y -> np_cov x y = 0.
Proof.
  intros Hlen Hn Hc.
  pose proof (np_cov_cauchy_schwarz x y Hlen Hn) as CS.
  assert (Hy : np_cov y y = 0) by (apply variance_zero_iff; [lia | exact Hc]).
  rewrite Hy in CS. nra.
Qed.

Lemma pearson_sign (x y : list R) :
  (2 <= length x)%nat -> length x = length y ->
  np_cov x x <> 0 -> np_cov y y <> 0 ->
  (pearson x y < 0 <-> np_cov x y < 0).
Proof.
  intros Hn Hlen Hx Hy.
  pose proof (np_cov_self_nonneg x Hn) as Px.
  assert (Hn' : (2 <= length y)%nat) by lia.
  pose proof (np_cov_self_nonneg y Hn') as Py.
  assert (Sx : 0 < sqrt (np_cov x x)) by (apply sqrt_lt_R0; lra).
  assert (Sy : 0 < sqrt (np_cov y y)) by (apply sqrt_lt_R0; lra).
  unfold pearson.
  set (s := sqrt (np_cov x x)) in *. set (t := sqrt (np_cov y y)) in *.
  set (c := np_cov x y).
  assert (Hst : 0 < / s * / t).
  { apply Rmult_lt_0_compat; apply Rinv_0_lt_compat; assumption. }
  replace (c / s / t) with (c * (/ s * / t)) by (unfold Rdiv; ring).
  split; intros H; nra.
Qed.

(** X10. On a view whose two columns are well conditioned and whose
    correlation is at least [1e-6] in absolute value, a completed run
    labels the correlation "Negative" exactly when the plotted trend line
    slopes downward. *)
Theorem label_matches_slope (view : DataFrame) (m : Metrics) :
  well_conditioned (map total_co2_emissions view) ->
  well_conditioned (map pct_unable_to_afford_diet view) ->
  analyze view = Ok m ->
  (exists r, correlation m = Some r /\ 1e-6 <= Rabs r) ->
  (correlation_delta m = "Negative"%string <-> fst (z m) < 0).
Proof.
  intros Wx _ H _.
  destruct (well_conditioned_spread _ Wx) as (_ & _ & Hnc & _).
  destruct (analyze_inv view m H) as (Hfit & Hcorr & Hlab & _).
  set (x := map total_co2_emissions view) in *.
  set (y := map pct_unable_to_afford_diet view) in *.
  assert (Hlen : length x = length y) by (unfold x, y; now rewrite !length_map).
  pose proof (not_constant_two x Hnc) as Hn.
  assert (Hx : np_cov x x <> 0).
  { intros E. apply Hnc. apply variance_zero_iff; assumption. }
  pose proof (np_cov_self_nonneg x Hn) as Px.
  rewrite (polyfit_closed_form x y Hlen Hnc) in Hfit.
  injection Hfit as Hz. rewrite <- Hz. unfold spec_trend_line. simpl fst.
  assert (Hslope : np_cov x y / np_cov x x < 0 <-> np_cov x y < 0).
  { assert (Hi : 0 < / np_cov x x) by (apply Rinv_0_lt_compat; lra).
    unfold Rdiv. split; intros; nra. }
  rewrite Hslope, Hlab, Hcorr. unfold corrcoef.
  destruct (length x <=? 1)%nat eqn:L; [apply Nat.leb_le in L; lia|].
  destruct (Req_dec_T (np_cov x x) 0) as [|_]; [contradiction|].
  destruct (Req_dec_T (np_cov y y) 0) as [Zy|Ny].
  - assert (Hcy : constant y) by (apply variance_zero_iff; [lia | exact Zy]).
    rewrite (np_cov_constant_r x y Hlen Hn Hcy).
    simpl. split; [discriminate | lra].
  - rewrite (clip_id _ _ _ (pearson_range x y Hlen Hn Hx Ny)).
    unfold corr_label. rewrite <- (pearson_sign x y Hn Hlen Hx Ny).
    destruct (Rlt_dec (pearson x y) 0); split; intros; try assumption;
      try reflexivity; try discriminate; contradiction.
Qed.

Lemma label_matches_slope_witness :
  well_conditioned (map total_co2_emissions synthetic_df) /\
  well_conditioned (map pct_unable_to_afford_diet synthetic_df) /\
  analyze synthetic_df = Ok synthetic_metrics /\
  (correlation_delta synthetic_metrics = "Negative"%string
   <-> fst (z synthetic_metrics) < 0).
Proof.
  assert (Wx : well_conditioned (map total_co2_emissions synthetic_df))
    by concrete_well_conditioned.
  assert (Wy : well_conditioned (map pct_unable_to_afford_diet synthetic_df))
    by concrete_well_conditioned.
  assert (Hr : exists r, correlation synthetic_metrics = Some r
                         /\ 1e-6 <= Rabs r).
  { exists 1. split; [exact synthetic_correlation|]. rewrite Rabs_R1. lra. }
  split; [exact Wx|]. split; [exact Wy|]. split; [exact synthetic_run|].
  exact (label_matches_slope synthetic_df synthetic_metrics
           Wx Wy synthetic_run Hr).
Defined.

(** ** When the run completes (lines 61-136) *)

Lemma Rsum_pos (xs : list R) :
  xs <> [] -> Forall (fun x => 0 < x) xs -> 0 < Rsum xs.
Proof.
  intros Hne H. induction H as [|x xs Hx Hxs IH]; [congruence|].
  rewrite Rsum_cons. destruct xs as [|x' xs'].
  - simpl. lra.
  - assert (0 < Rsum (x' :: xs')) by (apply IH; discriminate). lra.
Qed.

Lemma polyfit_arrays_not_TypeError (x y : list R) :
  x <> [] -> length x = length y -> polyfit_arrays x y <> Raise TypeError.
Proof.
  intros Hne Hlen. unfold polyfit_arrays.
  destruct (length x =? 0)%nat eqn:E0.
  { apply Nat.eqb_eq in E0. destruct x; [congruence | discriminate]. }
  rewrite <- Hlen, Nat.eqb_refl. simpl negb. cbv iota.
  destruct (Req_dec_T _ 0); [destruct (Req_dec_T _ 0)|]; discriminate.
Qed.

Lemma polyfit_arrays_positive (x y : list R) :
  x <> [] -> length x = length y -> Forall (fun v => 0 < v) x ->
  exists line, polyfit_arrays x y = Ok line.
Proof.
  intros Hne Hlen Hpos. pose proof (Rsum_pos x Hne Hpos) as Hs.
  unfold polyfit_arrays.
  destruct (length x =? 0)%nat eqn:E0.
  { apply Nat.eqb_eq in E0. destruct x; [congruence | discriminate]. }
  rewrite <- Hlen, Nat.eqb_refl. simpl negb. cbv iota.
  destruct (Req_dec_T _ 0); [destruct (Req_dec_T (Rsum x) 0); [lra|]|]; eauto.
Qed.

Lemma analyze_positive (view : DataFrame) :
  view <> [] ->
  (forall r, In r view -> 0 < total_co2_emissions r) ->
  exists m, analyze view = Ok m /\ data_points m = length view.
Proof.
  intros Hne Hpos.
  destruct (polyfit_arrays_positive (map total_co2_emissions view)
              (map pct_unable_to_afford_diet view)) as [line Hfit].
  - destruct view; [congruence | discriminate].
  - now rewrite !length_map.
  - rewrite Forall_map. apply Forall_forall. exact Hpos.
  - eexists. split; [apply analyze_ok; rewrite polyfit_columns; exact Hfit|].
    reflexivity.
Qed.

Lemma moderate_positive (view : DataFrame) :
  (forall r, In r view -> moderate_row r) ->
  forall r, In r view -> 0 < total_co2_emissions r.
Proof.
  intros H r Hr. destruct (H r Hr) as [[Hlo _] _]. lra.
Qed.

(** X11. The run stops with [TypeError] exactly on the empty view, and on
    every non-empty view whose CO2 values are between [1e-100] and [1e100]
    and whose diet values are at most [1e100] in absolute value it
    completes, with as many data points as the view has rows. *)
Theorem analyze_completes (view : DataFrame) :
  (analyze view = Raise TypeError <-> view = []) /\
  (view <> [] ->
   (forall r, In r view -> moderate_row r) ->
   exists m, analyze view = Ok m /\ data_points m = length view).
Proof.
  split.
  2:{ intros Hne Hm. apply analyze_positive; [exact Hne|].
      apply moderate_positive. exact Hm. }
  split; [|intros ->; reflexivity].
  intros H. destruct view as [|r view]; [reflexivity|]. exfalso.
  unfold analyze in H. rewrite polyfit_columns in H.
  pose proof (polyfit_arrays_not_TypeError
                (map total_co2_emissions (r :: view))
                (map pct_unable_to_afford_diet (r :: view))) as N.
  destruct (polyfit_arrays _ _) as [line|e]; simpl in H; [discriminate|].
  apply N; [discriminate | now rewrite !length_map | congruence].
Qed.

Lemma example_df_moderate : forall r, In r example_df -> moderate_row r.
Proof.
  apply Forall_forall. unfold example_df, moderate_row, double_range.
  repeat (apply Forall_cons;
          [simpl; split; [lra | apply Rabs_le; lra]|]).
  apply Forall_nil.
Qed.

Lemma analyze_completes_witness :
  exists m, analyze example_df = Ok m /\ data_points m = length example_df.
Proof.
  assert (Hne : example_df <> []) by discriminate.
  exact (proj2 (analyze_completes example_df) Hne example_df_moderate).
Defined.

(** X12. When a run completes on a view with fewer than two rows, the
    correlation is NaN and the metric is labelled "Positive". *)
Theorem undefined_correlation_label (view : DataFrame) (m : Metrics) :
  analyze view = Ok m ->
  (length view < 2)%nat ->
  correlation m = None /\ correlation_delta m = "Positive"%string.
Proof.
  intros H Hdeg. destruct (analyze_inv view m H) as (_ & Hcorr & Hlab & _).
  assert (E : correlation m = None).
  { rewrite Hcorr. unfold corrcoef. rewrite length_map.
    destruct (length view <=? 1)%nat eqn:L; [reflexivity|].
    apply Nat.leb_gt in L. lia. }
  split; [exact E|]. rewrite Hlab, E. reflexivity.
Qed.

Lemma undefined_correlation_label_witness :
  exists m,
    (length [mkRow 2019 464.1 60.2] < 2)%nat /\
    analyze [mkRow 2019 464.1 60.2] = Ok m /\
    correlation m = None /\ correlation_delta m = "Positive"%string.
Proof.
  assert (Hn : (length [mkRow 2019 464.1 60.2] < 2)%nat) by (simpl; lia).
  assert (Hx : total_co2_emissions (mkRow 2019 464.1 60.2) <> 0)
    by (simpl; lra).
  eexists. split; [exact Hn|].
  split; [exact (analyze_single (mkRow 2019 464.1 60.2) Hx)|].
  exact (undefined_correlation_label _ _
           (analyze_single (mkRow 2019 464.1 60.2) Hx) Hn).
Defined.

(** ** Frames without a gap (lines 43-51) *)

Lemma consecutive_min (y acc : Z) (ys : list Z) :
  consecutive_from y ys -> (acc < y)%Z -> fold_left Z.min ys acc = acc.
Proof.
  revert y acc. induction ys as [|v ys IH]; intros y acc Hc Hlt; simpl.
  - reflexivity.
  - destruct Hc as [-> Hc]. rewrite Z.min_l by lia.
    apply (IH (y + 1)%Z); [exact Hc | lia].
Qed.

Lemma consecutive_max (y acc : Z) (ys : list Z) :
  consecutive_from y ys -> (acc = y - 1)%Z ->
  fold_left Z.max ys acc = (acc + Z.of_nat (length ys))%Z.
Proof.
  revert y acc. induction ys as [|v ys IH]; intros y acc Hc Hacc.
  - simpl. lia.
  - destruct Hc as [-> Hc]. simpl fold_left. rewrite Z.max_r by lia.
    rewrite (IH (y + 1)%Z y Hc) by lia.
    change (length (y :: ys)) with (S (length ys)). lia.
Qed.

Lemma consecutive_filter (a b y : Z) (ys : list Z) :
  consecutive_from y ys ->
  filter (fun v => (v >=? a)%Z && (v <=? b)%Z) ys
  = map (fun i => (Z.max a y + Z.of_nat i)%Z)
        (seq 0 (Z.to_nat (Z.min b (y + Z.of_nat (length ys) - 1)
                          - Z.max a y + 1))).
Proof.
  revert y. induction ys as [|v ys IH]; intros y Hc.
  - simpl length. replace (Z.to_nat _) with 0%nat by lia. reflexivity.
  - destruct Hc as [-> Hc]. specialize (IH (y + 1)%Z Hc).
    change (length (y :: ys)) with (S (length ys)).
    simpl filter.
    destruct ((y >=? a)%Z && (y <=? b)%Z) eqn:E.
    + apply andb_true_iff in E. destruct E as [E1 E2].
      apply Z.geb_le in E1. apply Z.leb_le in E2.
      rewrite IH.
      replace (Z.to_nat (Z.min b (y + Z.of_nat (S (length ys)) - 1)
                         - Z.max a y + 1))
        with (S (Z.to_nat (Z.min b (y + 1 + Z.of_nat (length ys) - 1)
                           - Z.max a (y + 1) + 1))) by lia.
      rewrite <- cons_seq, map_cons, <- seq_shift, map_map.
      f_equal; [lia|]. apply map_ext. intros i. lia.
    + apply andb_false_iff in E. rewrite IH.
      destruct E as [E|E];
        [rewrite Z.geb_leb in E; apply Z.leb_gt in E | apply Z.leb_gt in E].
      * replace (Z.max a (y + 1)) with (Z.max a y) by lia.
        do 2 f_equal. lia.
      * replace (Z.to_nat (Z.min b (y + 1 + Z.of_nat (length ys) - 1)
                           - Z.max a (y + 1) + 1)) with 0%nat by lia.
        replace (Z.to_nat (Z.min b (y + Z.of_nat (S (length ys)) - 1)
                           - Z.max a y + 1)) with 0%nat by lia.
        reflexivity.
Qed.

Lemma filter_years (rng : Z * Z) (df : DataFrame) :
  map year (filter (year_mask rng) df)
  = filter (fun v => (v >=? fst rng)%Z && (v <=? snd rng)%Z) (map year df).
Proof.
  induction df as [|r df IH]; simpl; [reflexivity|].
  unfold year_mask at 1. destruct (_ && _); simpl; rewrite IH; reflexivity.
Qed.

Lemma gap_free_bounds (df : DataFrame) (lo hi : Z) :
  gap_free df -> slider_bounds df = Ok (lo, hi) ->
  consecutive_from lo (map year df) /\
  (hi = lo + Z.of_nat (length df) - 1)%Z.
Proof.
  intros Hg Hb. destruct (slider_bounds_inv df lo hi Hb) as [Hlo Hhi].
  unfold gap_free in Hg. unfold year_min in Hlo. unfold year_max in Hhi.
  rewrite <- (length_map year df).
  destruct (map year df) as [|y ys]; [discriminate|].
  injection Hlo as Hlo. injection Hhi as Hhi.
  rewrite (consecutive_min (y + 1) y ys Hg) in Hlo by lia.
  rewrite (consecutive_max (y + 1) y ys Hg) in Hhi by lia.
  subst lo hi. split; [split; [reflexivity | exact Hg]|].
  change (length (y :: ys)) with (S (length ys)). lia.
Qed.

(** X13. On a frame with one row per year and no year missing, every
    range [a <= b] between the slider's bounds selects exactly
    [b - a + 1] rows, one per year of the range.  When the frame holds one
    year only the slider refuses its bounds; when it holds more, and
    every row is moderate, the run completes for every such range. *)
Theorem dashboard_gap_free (df : DataFrame) (pick : Z * Z -> Z * Z)
    (lo hi a b : Z) :
  gap_free df ->
  slider_bounds df = Ok (lo, hi) ->
  pick (lo, hi) = (a, b) -> (lo <= a <= b)%Z -> (b <= hi)%Z ->
  length (filtered_df df (a, b)) = Z.to_nat (b - a + 1) /\
  map year (filtered_df df (a, b))
    = map (fun i => (a + Z.of_nat i)%Z) (seq 0 (Z.to_nat (b - a + 1))) /\
  (lo = hi -> dashboard df pick = Raise StreamlitAPIException) /\
  ((lo < hi)%Z ->
   (forall r, In r df -> moderate_row r) ->
   exists m, dashboard df pick = Ok m /\
             data_points m = Z.to_nat (b - a + 1)).
Proof.
  intros Hg Hb Hpick Hab Hbhi.
  destruct (gap_free_bounds df lo hi Hg Hb) as [Hc Hhi].
  assert (Hyears : map year (filtered_df df (a, b))
            = map (fun i => (a + Z.of_nat i)%Z)
                  (seq 0 (Z.to_nat (b - a + 1)))).
  { unfold filtered_df. rewrite filter_years. simpl fst. simpl snd.
    rewrite (consecutive_filter a b lo _ Hc), length_map.
    replace (Z.max a lo) with a by lia.
    do 2 f_equal. lia. }
  assert (Hlen : length (filtered_df df (a, b)) = Z.to_nat (b - a + 1)).
  { rewrite <- (length_map year), Hyears, length_map, length_seq.
    reflexivity. }
  split; [exact Hlen|]. split; [exact Hyears|]. split.
  - intros E. unfold dashboard. rewrite Hb. simpl. unfold slider. simpl.
    rewrite E, Z.ltb_irrefl. reflexivity.
  - intros Hlt Hm.
    destruct (analyze_positive (filtered_df df (a, b))) as (m & Hrun & Hdp).
    + intros E. rewrite E in Hlen. simpl in Hlen. lia.
    + intros r Hr. apply (moderate_positive df Hm). unfold filtered_df in Hr.
      apply filter_In in Hr. tauto.
    + exists m. unfold dashboard. rewrite Hb. simpl. unfold slider. simpl.
      destruct (lo <? hi)%Z eqn:E; [|apply Z.ltb_ge in E; lia].
      simpl. rewrite Hpick.
      split; [exact Hrun | congruence].
Qed.

Lemma example_df_gap_free : gap_free example_df.
Proof. unfold gap_free, example_df. simpl. repeat split. Qed.

Lemma dashboard_gap_free_witness :
  gap_free example_df /\
  slider_bounds example_df = Ok (2017, 2023)%Z /\
  length (filtered_df example_df (2019, 2021)%Z)
  = Z.to_nat (2021 - 2019 + 1) /\
  exists m, dashboard example_df (fun _ => (2019, 2021)%Z) = Ok m /\
            data_points m = Z.to_nat (2021 - 2019 + 1).
Proof.
  assert (Hb : slider_bounds example_df = Ok (2017, 2023)%Z) by reflexivity.
  assert (H1 : (2017 <= 2019 <= 2021)%Z) by lia.
  assert (H2 : (2021 <= 2023)%Z) by lia.
  assert (H3 : (2017 < 2023)%Z) by lia.
  pose proof (dashboard_gap_free example_df (fun _ => (2019, 2021)%Z)
                2017 2023 2019 2021 example_df_gap_free Hb eq_refl H1 H2)
    as (Hlen & _ & _ & Hrun).
  split; [exact example_df_gap_free|]. split; [exact Hb|].
  split; [exact Hlen|].
  exact (Hrun H3 example_df_moderate).
Defined.

Lemma pct_change_mean_geometric_witness :
  (2 <= length [mkRow 2021 100 60; mkRow 2022 110 60; mkRow 2023 121 60])%nat /\
  Series_mean (pct_change (column total_co2_emissions
     [mkRow 2021 100 60; mkRow 2022 110 60; mkRow 2023 121 60]))
  = Some (1.1 - 1).
Proof.
  set (view := [mkRow 2021 100 60; mkRow 2022 110 60; mkRow 2023 121 60]).
  assert (Hn : (2 <= length view)%nat) by (simpl; lia).
  assert (Hnz : forall r, In r view -> total_co2_emissions r <> 0).
  { apply Forall_forall. unfold view. repeat constructor; simpl; lra. }
  assert (Hg : forall i, (S i < length view)%nat ->
             nth (S i) (map total_co2_emissions view) 0
             = 1.1 * nth i (map total_co2_emissions view) 0).
  { intros [|[|i]] Hi; simpl in *; [lra | lra | lia]. }
  split; [exact Hn|].
  exact (proj1 (pct_change_mean_geometric total_co2_emissions 1.1 view
                  Hn Hnz Hg)).
Defined.

(** ** Points on a line (lines 78-83 and 132-136) *)

Lemma corrcoef_self (x : list R) : ~ constant x -> corrcoef x x = Some 1.
Proof.
  intros Hnc. pose proof (not_constant_two x Hnc) as Hn.
  apply corrcoef_defined; [reflexivity|].
  repeat split; try assumption.
  assert (Hv : np_cov x x <> 0).
  { intros E. apply Hnc. apply variance_zero_iff; assumption. }
  pose proof (np_cov_self_nonneg x Hn) as Px.
  assert (Sx : 0 < sqrt (np_cov x x)) by (apply sqrt_lt_R0; lra).
  unfold pearson. rewrite <- (sqrt_sqrt _ Px) at 1. field. lra.
Qed.

(** X14. When the diet column of a view is an exact linear function
    [a x + b] of its CO2 column, with [a] not 0 and both columns well
    conditioned, the run completes, the fitted line is that line, and the
    correlation is 1 for a rising line and -1 for a falling one, labelled
    "Negative" exactly when the line falls. *)
Theorem linear_view (a b : R) (view : DataFrame) :
  a <> 0 ->
  well_conditioned (map total_co2_emissions view) ->
  well_conditioned (map pct_unable_to_afford_diet view) ->
  (forall r, In r view ->
     pct_unable_to_afford_diet r = a * total_co2_emissions r + b) ->
  exists m, analyze view = Ok m /\
    z m = (a, b) /\
    correlation m = Some (a / Rabs a) /\
    (0 < a -> correlation m = Some 1) /\
    (a < 0 -> correlation m = Some (-1)) /\
    (correlation_delta m = "Negative"%string <-> a < 0).
Proof.
  intros Ha Wx _ Hline.
  destruct (well_conditioned_spread _ Wx) as (_ & _ & Hnc & _).
  set (x := map total_co2_emissions view) in *.
  assert (Hy : map pct_unable_to_afford_diet view
               = map (fun v => a * v + b) x).
  { unfold x. rewrite map_map. apply map_ext_in. exact Hline. }
  assert (Hfit : polyfit (column total_co2_emissions view)
                         (column pct_unable_to_afford_diet view) = Ok (a, b)).
  { rewrite polyfit_columns, Hy. apply polyfit_recovers_line. exact Hnc. }
  assert (Hcorr : corr (column total_co2_emissions view)
                       (column pct_unable_to_afford_diet view)
                  = Some (a / Rabs a)).
  { rewrite corr_columns, Hy. fold x.
    replace x with (map (fun v => 1 * v + 0) x) at 1
      by (rewrite <- (map_id x) at 2; apply map_ext; intros v; ring).
    rewrite (corrcoef_affine 1 0 a b x x) by (lra || reflexivity).
    rewrite (corrcoef_self x Hnc). simpl. f_equal.
    rewrite Rabs_R1. field. apply Rabs_no_R0. exact Ha. }
  eexists. split; [apply analyze_ok; exact Hfit|].
  cbn [z correlation correlation_delta]. rewrite Hcorr.
  split; [reflexivity|]. split; [reflexivity|].
  split; [intros Hp; rewrite (Rabs_right a) by lra; f_equal; field; lra|].
  split; [intros Hp; rewrite (Rabs_left a) by lra; f_equal; field; lra|].
  unfold corr_label.
  destruct (Rcase_abs a) as [Hneg|Hpos].
  - assert (E : a / Rabs a = -1) by (rewrite (Rabs_left a) by lra; field; lra).
    rewrite E. destruct (Rlt_dec (-1) 0); [tauto | lra].
  - assert (E : a / Rabs a = 1) by (rewrite (Rabs_right a) by lra; field; lra).
    rewrite E. destruct (Rlt_dec 1 0); [lra|].
    split; [discriminate | lra].
Qed.

Lemma linear_view_witness :
  (2 <> 0) /\
  well_conditioned (map total_co2_emissions synthetic_df) /\
  well_conditioned (map pct_unable_to_afford_diet synthetic_df) /\
  exists m, analyze synthetic_df = Ok m /\ z m = (2, 3).
Proof.
  assert (Ha : 2 <> 0) by lra.
  assert (Wx : well_conditioned (map total_co2_emissions synthetic_df))
    by concrete_well_conditioned.
  assert (Wy : well_conditioned (map pct_unable_to_afford_diet synthetic_df))
    by concrete_well_conditioned.
  assert (Hline : forall r, In r synthetic_df ->
            pct_unable_to_afford_diet r = 2 * total_co2_emissions r + 3).
  { apply Forall_forall. unfold synthetic_df. repeat constructor. }
  split; [exact Ha|]. split; [exact Wx|]. split; [exact Wy|].
  destruct (linear_view 2 3 synthetic_df Ha Wx Wy Hline) as (m & Hm & Hz & _).
  exists m. split; [exact Hm | exact Hz].
Defined.

(** ** From the table to the view (lines 28-51) *)

Lemma all_some_length {A : Type} (l : list (option A)) (l' : list A) :
  all_some l = Some l' -> length l' = length l.
Proof.
  revert l'. induction l as [|[a|] l IH]; intros l' H; simpl in H.
  - injection H as <-. reflexivity.
  - destruct (all_some l) as [l0|]; [|discriminate].
    injection H as <-. simpl. f_equal. apply IH. reflexivity.
  - discriminate.
Qed.

(** X15. The rows that [load_data] returns, read as the frame the script
    works on, are as many as the rows of the table and in ascending year
    order, whatever the order in the table; so is every filtered view of
    them. *)
Theorem load_then_filter (src : source) (F : Frame) (df : DataFrame) :
  load_data src = Ok F -> to_rows F = Some df ->
  (exists t, src = Database (Some t) /\ length df = length (rows t)) /\
  ascending df /\
  (forall year_range, ascending (filtered_df df year_range)).
Proof.
  intros Hload Hrows.
  assert (Hasc : ascending df) by (eapply load_data_ascending; eauto).
  split; [|split; [exact Hasc|]].
  - destruct src as [| |[t|]]; try discriminate.
    exists t. split; [reflexivity|].
    unfold load_data in Hload; simpl in Hload.
    destruct (sql_column_index "year" (columns t)) as [i|]; [|discriminate].
    simpl in Hload. injection Hload as <-.
    unfold to_rows in Hrows. simpl in Hrows.
    destruct (column_index "year" (columns t)); [|discriminate].
    destruct (column_index "total_co2_emissions" (columns t)); [|discriminate].
    destruct (column_index "pct_unable_to_afford_diet" (columns t));
      [|discriminate].
    apply all_some_length in Hrows. rewrite length_map in Hrows.
    rewrite Hrows. symmetry. apply Permutation_length. apply order_by_perm.
  - intros rng. unfold filtered_df. apply ascending_filter. exact Hasc.
Qed.

Lemma unsorted_source_loads :
  load_data unsorted_source
  = Ok (mkFrame three_columns
          [ [CInt 2017; CReal 440.0; CReal 60.8];
            [CInt 2018; CReal 434.6; CReal 60.2] ]).
Proof.
  unfold load_data, unsorted_source. simpl. f_equal. f_equal.
  unfold order_by. simpl.
  destruct (Rle_dec _ _) as [H|H]; [|reflexivity].
  exfalso. unfold year_key in H. simpl in H. lra.
Qed.

Lemma load_then_filter_witness :
  load_data unsorted_source
  = Ok (mkFrame three_columns
          [ [CInt 2017; CReal 440.0; CReal 60.8];
            [CInt 2018; CReal 434.6; CReal 60.2] ]) /\
  ascending [mkRow 2017 440.0 60.8; mkRow 2018 434.6 60.2].
Proof.
  split; [exact unsorted_source_loads|].
  exact (proj1 (proj2 (load_then_filter unsorted_source _
                  [mkRow 2017 440.0 60.8; mkRow 2018 434.6 60.2]
                  unsorted_source_loads eq_refl))).
Defined.

(** A table that has the three columns and no row loads without an error
    as the empty frame; the run then stops at the slider, where [int(nan)]
    raises [ValueError], whatever range would be picked. *)
Lemma empty_table_run (cols : list string) (i j k : nat) :
  column_index "year" cols = Some i ->
  column_index "total_co2_emissions" cols = Some j ->
  column_index "pct_unable_to_afford_diet" cols = Some k ->
  load_data (Database (Some (mkTable cols []))) = Ok (mkFrame cols []) /\
  to_rows (mkFrame cols []) = Some [] /\
  (forall pick, dashboard [] pick = Raise ValueError).
Proof.
  intros Hi Hj Hk. split; [|split].
  - unfold load_data. simpl. rewrite (sql_column_index_exact _ _ _ Hi).
    reflexivity.
  - unfold to_rows. simpl. rewrite Hi, Hj, Hk. reflexivity.
  - intros pick. reflexivity.
Qed.
